(** * The Turing stream cipher (package [turing]): model and properties

    A shallow embedding of the Go package: [util.go] (octet and rotation
    helpers) and the cipher proper (construction, key schedule, register
    initialisation, round engine, keystream cursor, reset).

    Conventions.
    - A [uint32] word and a [byte] are integers of [Z]; every operation
      that can leave the type's range writes its wrap-around out
      ([add32], [shl32]).  A [uint] shift count is a [Z] as well.
    - A Go array or slice is a [list Z]; Go's fixed array lengths are
      recorded by the predicate [shape].
    - A run-time panic (index out of range) is [None]. *)

From Stdlib Require Import ZArith Lia.
From stdpp Require Import base option list strings pretty relations.
From coqutil Require Import Z.bitblast.

Local Open Scope Z_scope.

(** ** Machine arithmetic *)

Definition wrap32 (x : Z) : Z := x mod 2 ^ 32.

(** [uint32] addition. *)
Definition add32 (a b : Z) : Z := wrap32 (a + b).

(** [w << n] on [uint32]: bits shifted past bit 31 are lost, and a count
    of 32 or more leaves nothing. *)
Definition shl32 (w n : Z) : Z :=
  if 32 <=? n then 0 else wrap32 (Z.shiftl w n).

(** [w >> n] on [uint32]. *)
Definition shr32 (w n : Z) : Z := Z.shiftr w n.

(** Subtraction of [uint] shift counts ([uint] is 64 bits wide). *)
Definition usub (a b : Z) : Z := (a - b) mod 2 ^ 64.

(** The conversion [byte(x)]. *)
Definition byte (x : Z) : Z := x mod 256.

(** Array read at an index that the Go types keep in range. *)
Definition at_ (l : list Z) (i : nat) : Z := nth i l 0.

(** [for i := 0; i < n; i++ { s = body i s }]. *)
Definition for_range {St : Type} (n : nat) (body : nat → St → St) (s : St)
    : St :=
  foldl (λ acc i, body i acc) s (seq 0 n).

(** The same loop when the body can panic. *)
Definition for_rangeM {St : Type} (n : nat) (body : nat → St → option St)
    (s : St) : option St :=
  foldl (λ acc i, acc ≫= body i) (Some s) (seq 0 n).

(** [l[i] = v] on a slice or array indexed by a run-time value: panics
    out of range. *)
Definition store (l : list Z) (i : nat) (v : Z) : option (list Z) :=
  if decide (i < length l)%nat then Some (<[i := v]> l) else None.

(** ** util.go *)

Definition getOctet (word n : Z) : Z :=
  byte (Z.land (shr32 word (usub 24 (n * 8))) 0xff).

Definition splitWord (word : Z) : list Z :=
  [ byte (Z.land (shr32 word 24) 0xff);
    byte (Z.land (shr32 word 16) 0xff);
    byte (Z.land (shr32 word 8) 0xff);
    byte (Z.land word 0xff) ].

Definition joinWord (octets : Z * Z * Z * Z) : Z :=
  let '(o0, o1, o2, o3) := octets in
  Z.lor (Z.lor (Z.lor (shl32 o0 24) (shl32 o1 16)) (shl32 o2 8)) o3.

Definition rotl (word shift : Z) : Z :=
  Z.lor (shl32 word shift) (shr32 word (usub 32 shift)).

Definition rotr (word shift : Z) : Z :=
  Z.lor (shr32 word shift) (shl32 word (usub 32 shift)).

(** ** Constants and the cipher state *)

Definition reglen : nat := 17.
Definition minkey : Z := 8.
Definition maxkey : Z := 32.
Definition maxiv : Z := 48.
Definition confounder : Z := 0x1020300.

Definition KeySizeError : Type := string.

Definition Error (k : KeySizeError) : string := "turing: " +:+ k.

Record Cipher : Type := mkCipher {
  key : list Z;
  keybox : list (list Z);
  reg : list Z;
  buffer : list Z;
  bufpos : Z
}.

Definition set_reg (c : Cipher) (r : list Z) : Cipher :=
  mkCipher (key c) (keybox c) r (buffer c) (bufpos c).
Definition set_buffer (c : Cipher) (b : list Z) : Cipher :=
  mkCipher (key c) (keybox c) (reg c) b (bufpos c).
Definition set_bufpos (c : Cipher) (p : Z) : Cipher :=
  mkCipher (key c) (keybox c) (reg c) (buffer c) p.
Definition set_key (c : Cipher) (k : list Z) : Cipher :=
  mkCipher k (keybox c) (reg c) (buffer c) (bufpos c).
Definition set_keybox (c : Cipher) (kb : list (list Z)) : Cipher :=
  mkCipher (key c) kb (reg c) (buffer c) (bufpos c).

(** The zero value [Cipher{}]. *)
Definition zeroCipher : Cipher :=
  mkCipher [] (replicate 4 (replicate 256 0)) (replicate reglen 0)
           (replicate 20 0) 0.

(** What the Go types [[4][256]uint32], [[17]uint32] and [[20]byte] fix. *)
Definition shape (c : Cipher) : Prop :=
  length (keybox c) = 4%nat ∧
  Forall (λ row, length row = 256%nat) (keybox c) ∧
  length (reg c) = reglen ∧
  length (buffer c) = 20%nat.

Global Instance shape_dec c : Decision (shape c).
Proof. unfold shape. apply _. Defined.

(** The state invariants of the data model. *)
Definition invariant (c : Cipher) : Prop :=
  shape c ∧ (2 ≤ length (key c) ≤ 8)%nat ∧ 0 ≤ bufpos c ≤ 20.

Global Instance invariant_dec c : Decision (invariant c).
Proof. unfold invariant. apply _. Defined.

(** The result of [NewCipher]: a cipher, a size error, or a panic. *)
Inductive Constructed : Type :=
| Ready (c : Cipher)
| Failed (err : KeySizeError)
| Panicked.

Section Turing.

(** The static tables live in a file of the package that is not at hand:
    [sbox] has 256 [byte] entries, [qbox] and [mtab] have 256 [uint32]
    entries.  They are indexed by byte values only. *)
Variable sbox : Z → Z.
Variable qbox : Z → Z.
Variable mtab : Z → Z.

(** ** The round engine *)

Definition clockRegister (c : Cipher) : Cipher :=
  let r := reg c in
  let word :=
    Z.lxor (Z.lxor (Z.lxor (at_ r 15) (at_ r 4)) (shl32 (at_ r 0) 8))
           (mtab (shr32 (at_ r 0) 24)) in
  let r := for_range (reglen - 1) (λ i r, <[i := at_ r (i + 1)]> r) r in
  set_reg c (<[(reglen - 1)%nat := word]> r).

Definition keyedS (c : Cipher) (word rotate : Z) : Z :=
  foldl (λ s io, Z.lxor s (at_ (nth (fst io) (keybox c) []) (Z.to_nat (snd io))))
        0 (imap pair (splitWord (rotl word rotate))).

(** [copy(buf[lo:hi], src)]. *)
Definition copy_slice (buf : list Z) (lo hi : nat) (src : list Z) : list Z :=
  list_inserts lo (take (hi - lo) src) buf.

Definition nextRound (c0 : Cipher) : Cipher :=
  let c1 := clockRegister c0 in
  let a := at_ (reg c1) 16 in
  let b := at_ (reg c1) 13 in
  let c := at_ (reg c1) 6 in
  let d := at_ (reg c1) 1 in
  let e := at_ (reg c1) 0 in
  (* Non-linear filter *)
  let e := add32 e (add32 (add32 (add32 a b) c) d) in
  let '(a, b, c, d) := (add32 a e, add32 b e, add32 c e, add32 d e) in
  let '(a, b, c, d, e) :=
    (keyedS c1 a 0, keyedS c1 b 8, keyedS c1 c 16, keyedS c1 d 24,
     keyedS c1 e 0) in
  let e := add32 e (add32 (add32 (add32 a b) c) d) in
  let '(a, b, c, d) := (add32 a e, add32 b e, add32 c e, add32 d e) in
  let c4 := clockRegister (clockRegister (clockRegister c1)) in
  let '(a, b, c, d, e) :=
    (add32 a (at_ (reg c4) 14), add32 b (at_ (reg c4) 12),
     add32 c (at_ (reg c4) 8), add32 d (at_ (reg c4) 1),
     add32 e (at_ (reg c4) 0)) in
  let buf := copy_slice (buffer c4) 0 4 (splitWord a) in
  let buf := copy_slice buf 4 8 (splitWord b) in
  let buf := copy_slice buf 8 12 (splitWord c) in
  let buf := copy_slice buf 12 16 (splitWord d) in
  let buf := copy_slice buf 16 20 (splitWord e) in
  clockRegister (set_bufpos (set_buffer c4 buf) 0).

(** ** Key schedule and register initialisation *)

Definition fixedS (word : Z) : Z :=
  for_range 4 (λ i word,
    let i := Z.of_nat i in
    let shift := i * 8 in
    let octet := sbox (getOctet word i) in
    Z.lor (Z.land (Z.lxor word (rotl (qbox octet) shift))
                  (rotr 0x00ffffff shift))
          (shl32 octet (usub 24 shift))) word.

(** pseudo-hadamard transform; [words[len(words)-1]] panics on an empty
    slice. *)
Definition hadamard (words : list Z) : option (list Z) :=
  let sum := foldl add32 0 words in
  words ← store words (length words - 1) 0;
  Some (for_range (length words) (λ i ws, <[i := add32 (at_ ws i) sum]> ws)
                  words).

(** [[4]byte{b[i*4], b[i*4+1], b[i*4+2], b[i*4+3]}], read for
    [i < len(b)/4] only. *)
Definition quad (b : list Z) (i : nat) : Z * Z * Z * Z :=
  (at_ b (i * 4), at_ b (i * 4 + 1), at_ b (i * 4 + 2), at_ b (i * 4 + 3)).

Definition initKey (c : Cipher) (k : list Z) : option Cipher :=
  let n := (length k / 4)%nat in
  let ks := for_range n (λ i ks, <[i := fixedS (joinWord (quad k i))]> ks)
                      (replicate n 0) in
  ks ← hadamard ks;
  (* Pre-calculate keyed sboxes *)
  let kb :=
    for_range (length (keybox c)) (λ box kb,
      (* [range sbox]: the table has 256 entries *)
      for_range 256 (λ i kb,
        let shift := Z.of_nat box * 8 in
        let '(octet, word) :=
          foldl (λ ow pk,
                   let octet :=
                     sbox (Z.lxor (getOctet (snd pk) (Z.of_nat box)) (fst ow)) in
                   (octet,
                    Z.lxor (snd ow)
                           (rotl (qbox octet) (Z.of_nat (fst pk) + shift))))
                (byte (Z.of_nat i), 0) (imap pair ks) in
        alter (λ row,
                 <[i := Z.lor (Z.land word (rotr 0x00ffffff shift))
                              (shl32 octet (usub 24 shift))]> row) box kb) kb)
      (keybox c) in
  Some (set_keybox (set_key c ks) kb).

Definition initIV (c : Cipher) (iv : list Z) : option Cipher :=
  let r := 0%nat in
  rg ← for_rangeM (length iv / 4)
         (λ i rg, store rg (r + i) (fixedS (joinWord (quad iv i)))) (reg c);
  let r := (r + length iv / 4)%nat in
  rg ← for_rangeM (length (key c))
         (λ i rg, store rg (r + i) (at_ (key c) i)) rg;
  let r := (r + length (key c))%nat in
  rg ← store rg r
         (wrap32 (Z.lor (Z.lor confounder
                               (Z.shiftl (Z.of_nat (length (key c))) 4))
                        (Z.of_nat (length iv) / 4)));
  let r := (r + 1)%nat in
  let rg := for_range (reglen - r) (λ i rg,
              <[(r + i)%nat :=
                  keyedS c (add32 (at_ rg i) (at_ rg (r + i - 1))) 0]> rg) rg in
  rg ← hadamard rg;
  Some (set_reg c rg).

(** ** The public operations *)

Definition NewCipher (k iv : list Z) : Constructed :=
  let keylen := Z.of_nat (length k) in
  let ivlen := Z.of_nat (length iv) in
  if negb (Z.rem keylen 4 =? 0) then
    Failed "key size must be a multiple of 4"
  else if negb (Z.rem ivlen 4 =? 0) then
    Failed "iv size must be a multiple of 4"
  else if keylen <? minkey then
    Failed ("key size must be >= " +:+ pretty minkey)
  else if keylen >? maxkey then
    Failed ("key size must be <= " +:+ pretty maxkey)
  else if keylen + ivlen >? maxiv then
    Failed ("combined key and iv sizes must be <= " +:+ pretty maxiv)
  else
    match initKey zeroCipher k ≫= (λ c, initIV c iv) with
    | Some c => Ready (nextRound c)
    | None => Panicked
    end.

Definition Reset (c : Cipher) : Cipher :=
  let ks := for_range (length (key c)) (λ i ks, <[i := 0]> ks) (key c) in
  let kb := for_range (length (keybox c)) (λ i kb,
              for_range (length (nth i kb [])) (λ j kb,
                alter (λ row, <[j := 0]> row) i kb) kb) (keybox c) in
  let buf := for_range (length (buffer c)) (λ i b, <[i := 0]> b) (buffer c) in
  let rg := for_range (length (reg c)) (λ i r, <[i := 0]> r) (reg c) in
  mkCipher ks kb rg buf 0.

(** The loop of [XORKeyStream], from index [i] on; [src] holds the bytes
    not yet read.  The result is the cipher and [dst] after the call. *)
Fixpoint xor_loop (i : nat) (src : list Z) (c : Cipher) (dst : list Z)
    : option (Cipher * list Z) :=
  match src with
  | [] => Some (c, dst)
  | s :: src =>
    let c := if bufpos c =? Z.of_nat (length (buffer c)) then nextRound c
             else c in
    if decide (0 ≤ bufpos c) then
      k ← buffer c !! Z.to_nat (bufpos c);
      dst ← store dst i (Z.lxor s k);
      xor_loop (S i) src (set_bufpos c (bufpos c + 1)) dst
    else None
  end.

Definition XORKeyStream (c : Cipher) (dst src : list Z)
    : option (Cipher * list Z) :=
  xor_loop 0 src c dst.

End Turing.

(** ** Reference descriptions

    The definitions below follow the prose description of the cipher;
    the theorems compare them with the code above. *)

(** The feedback word as the code computes it. *)
Definition feedback (mtab : Z → Z) (r : list Z) : Z :=
  Z.lxor (Z.lxor (Z.lxor (at_ r 15) (at_ r 4)) (shl32 (at_ r 0) 8))
         (mtab (shr32 (at_ r 0) 24)).

(** The feedback word as the description has it, with the word at
    position 16 in place of the one at position 15. *)
Definition feedback_described (mtab : Z → Z) (r : list Z) : Z :=
  Z.lxor (Z.lxor (Z.lxor (at_ r 16) (at_ r 4)) (shl32 (at_ r 0) 8))
         (mtab (shr32 (at_ r 0) 24)).

(** One clock of the register as described: index [i] receives index
    [i+1], the new word goes to position 16. *)
Definition clock_with (word : list Z → Z) (c : Cipher) : Cipher :=
  set_reg c (drop 1 (reg c) ++ [word (reg c)]).

(** The four octets of a word, most significant first. *)
Definition be32 (w : Z) : list Z :=
  [ w / 2 ^ 24 mod 256; w / 2 ^ 16 mod 256; w / 2 ^ 8 mod 256; w mod 256 ].

(** One round as described: the taps, the two mixing steps around the
    keyed substitution, the second set of taps, and the serialisation. *)
Definition round_described (mtab : Z → Z) (c0 : Cipher) : Cipher :=
  let clocked n := Nat.iter n (clockRegister mtab) c0 in
  let r1 := reg (clocked 1%nat) in
  let a := at_ r1 16 in
  let b := at_ r1 13 in
  let c := at_ r1 6 in
  let d := at_ r1 1 in
  let e := at_ r1 0 in
  let e1 := wrap32 (e + a + b + c + d) in
  let a1 := wrap32 (a + e1) in
  let b1 := wrap32 (b + e1) in
  let c1 := wrap32 (c + e1) in
  let d1 := wrap32 (d + e1) in
  let sa := keyedS c0 a1 0 in
  let sb := keyedS c0 b1 8 in
  let sc := keyedS c0 c1 16 in
  let sd := keyedS c0 d1 24 in
  let se := keyedS c0 e1 0 in
  let e2 := wrap32 (se + sa + sb + sc + sd) in
  let a2 := wrap32 (sa + e2) in
  let b2 := wrap32 (sb + e2) in
  let c2 := wrap32 (sc + e2) in
  let d2 := wrap32 (sd + e2) in
  let r4 := reg (clocked 4%nat) in
  let a3 := wrap32 (a2 + at_ r4 14) in
  let b3 := wrap32 (b2 + at_ r4 12) in
  let c3 := wrap32 (c2 + at_ r4 8) in
  let d3 := wrap32 (d2 + at_ r4 1) in
  let e3 := wrap32 (e2 + at_ r4 0) in
  mkCipher (key c0) (keybox c0) (reg (clocked 5%nat))
           (be32 a3 ++ be32 b3 ++ be32 c3 ++ be32 d3 ++ be32 e3) 0.

(** The validation rules in the order of the interface description: the
    message of the first rule that the sizes break, if any. *)
Definition first_violation (keylen ivlen : Z) : option KeySizeError :=
  if decide (keylen mod 4 ≠ 0) then Some "key size must be a multiple of 4"
  else if decide (ivlen mod 4 ≠ 0) then Some "iv size must be a multiple of 4"
  else if decide (keylen < 8) then Some "key size must be >= 8"
  else if decide (keylen > 32) then Some "key size must be <= 32"
  else if decide (keylen + ivlen > 48)
       then Some "combined key and iv sizes must be <= 48"
  else None.

(** A valid key/IV pair. *)
Definition valid_sizes (k iv : list Z) : Prop :=
  Z.of_nat (length k) mod 4 = 0 ∧ Z.of_nat (length iv) mod 4 = 0 ∧
  8 ≤ Z.of_nat (length k) ∧ Z.of_nat (length k) ≤ 32 ∧
  Z.of_nat (length k) + Z.of_nat (length iv) ≤ 48.

Global Instance valid_sizes_dec k iv : Decision (valid_sizes k iv).
Proof. unfold valid_sizes. apply _. Defined.

(** The keystream bytes that a call of [XORKeyStream] on [n] source
    bytes reads from the buffer, and the cipher it leaves. *)
Fixpoint keystream (mtab : Z → Z) (n : nat) (c : Cipher) : Cipher * list Z :=
  match n with
  | O => (c, [])
  | S n =>
    let c := if bufpos c =? Z.of_nat (length (buffer c)) then nextRound mtab c
             else c in
    let k := at_ (buffer c) (Z.to_nat (bufpos c)) in
    let '(c', ks) := keystream mtab n (set_bufpos c (bufpos c + 1)) in
    (c', k :: ks)
  end.

(** The cursor is within the buffer, or just past its end. *)
Definition cursor_ok (c : Cipher) : Prop :=
  length (buffer c) = 20%nat ∧ 0 ≤ bufpos c ≤ 20.

(** The operations that a caller can run on a constructed cipher. *)
Inductive op_step (mtab : Z → Z) : Cipher → Cipher → Prop :=
| op_stream c dst src c' out :
    XORKeyStream mtab c dst src = Some (c', out) → op_step mtab c c'
| op_reset c : op_step mtab c (Reset c).

(** ** Stand-in tables and inputs for the closed examples

    Every theorem below holds for all tables; the examples fix some. *)
Module Sample.
Definition sbox (i : Z) : Z := (i * 7 + 3) mod 256.
Definition qbox (i : Z) : Z := (i * 0x01020305 + 0x9e3779b9) mod 2 ^ 32.
Definition mtab (i : Z) : Z := (i * 0xd02b4367) mod 2 ^ 32.

Definition key8 : list Z := [1; 2; 3; 4; 5; 6; 7; 8].
Definition iv4 : list Z := [9; 10; 11; 12].

(** A cipher that differs from the zero value in one register word. *)
Definition top_set : Cipher :=
  set_reg zeroCipher (<[16%nat := 1]> (replicate reglen 0)).

(** The cipher that [NewCipher] returns for [key8] and [iv4]. *)
Definition cipher84 : Cipher :=
  match NewCipher sbox qbox mtab key8 iv4 with
  | Ready c => c
  | _ => zeroCipher
  end.

(** The cipher that [NewCipher] returns for [key8] and no IV. *)
Definition cipher8 : Cipher :=
  match NewCipher sbox qbox mtab key8 [] with
  | Ready c => c
  | _ => zeroCipher
  end.
End Sample.

(** * Properties *)

(** ** Loops and arrays *)

Section Loops.
Context {St : Type}.

Lemma for_range_S n (body : nat → St → St) s :
  for_range (S n) body s = body n (for_range n body s).
Proof. unfold for_range. rewrite seq_S, foldl_app. reflexivity. Qed.

Lemma for_range_ind (P : nat → St → Prop) n (body : nat → St → St) s :
  P 0%nat s →
  (∀ i t, (i < n)%nat → P i t → P (S i) (body i t)) →
  P n (for_range n body s).
Proof.
  intros H0 Hstep. induction n as [|n IH]; [exact H0|].
  rewrite for_range_S. apply Hstep; [lia|].
  apply IH. intros i t Hi. apply Hstep. lia.
Qed.

Lemma for_rangeM_S n (body : nat → St → option St) s :
  for_rangeM (S n) body s = for_rangeM n body s ≫= body n.
Proof. unfold for_rangeM. rewrite seq_S, foldl_app. reflexivity. Qed.

Lemma for_rangeM_ind (P : nat → St → Prop) n (body : nat → St → option St) s :
  P 0%nat s →
  (∀ i t, (i < n)%nat → P i t → ∃ t', body i t = Some t' ∧ P (S i) t') →
  ∃ t, for_rangeM n body s = Some t ∧ P n t.
Proof.
  intros H0 Hstep. induction n as [|n IH]; [by exists s|].
  destruct IH as (t & Ht & HP); [intros i u Hi; apply Hstep; lia|].
  destruct (Hstep n t) as (t' & Hb & HP'); [lia|done|].
  exists t'. rewrite for_rangeM_S, Ht. done.
Qed.
End Loops.

(** A list of known length is the list of its elements. *)
Ltac explode l H :=
  repeat (destruct l as [|? l]; [cbn [length] in H; lia|]);
  destruct l; [clear H|cbn [length] in H; lia].

Lemma at_lookup (l : list Z) i x : l !! i = Some x → at_ l i = x.
Proof. apply nth_lookup_Some. Qed.

Lemma lookup_at (l : list Z) i : (i < length l)%nat → l !! i = Some (at_ l i).
Proof.
  intros Hi. destruct (nth_lookup_or_length l i 0) as [H|H]; [exact H|lia].
Qed.

Lemma store_Some l i v :
  (i < length l)%nat → store l i v = Some (<[i := v]> l).
Proof. intros Hi. unfold store. by rewrite decide_True. Qed.

(** ** The register clock *)

Lemma clockRegister_fields mtab c :
  key (clockRegister mtab c) = key c ∧
  keybox (clockRegister mtab c) = keybox c ∧
  buffer (clockRegister mtab c) = buffer c ∧
  bufpos (clockRegister mtab c) = bufpos c ∧
  length (reg (clockRegister mtab c)) = length (reg c).
Proof.
  repeat split. unfold clockRegister. cbn [reg set_reg].
  rewrite length_insert.
  apply (for_range_ind (λ _ r, length r = length (reg c))); [done|].
  intros i t _ Ht. by rewrite length_insert.
Qed.

(** C1, as the code has it: the feedback word is the XOR of register[15]
    (not register[16]), register[4], register[0] shifted left by 8 bits,
    and the table entry indexed by the top byte of register[0]; every
    register word moves one position down (index i receives index i+1)
    and the new word is placed at position 16. *)
Theorem clockRegister_feedback_15 (mtab : Z → Z) (c : Cipher) :
  length (reg c) = reglen →
  clockRegister mtab c = clock_with (feedback mtab) c ∧
  (∀ i, (i < 16)%nat → reg (clockRegister mtab c) !! i = reg c !! S i) ∧
  reg (clockRegister mtab c) !! 16%nat = Some (feedback mtab (reg c)).
Proof.
  intros Hlen. destruct c as [k kb r b p]. cbn [reg] in *.
  unfold reglen in Hlen. explode r Hlen.
  split; [reflexivity|]. split; [|reflexivity].
  intros i Hi. do 16 (destruct i as [|i]; [reflexivity|]). lia.
Qed.

Lemma clockRegister_feedback_15_witness :
  clockRegister Sample.mtab Sample.top_set
    = clock_with (feedback Sample.mtab) Sample.top_set ∧
  (∀ i, (i < 16)%nat →
     reg (clockRegister Sample.mtab Sample.top_set) !! i
       = reg Sample.top_set !! S i) ∧
  reg (clockRegister Sample.mtab Sample.top_set) !! 16%nat
    = Some (feedback Sample.mtab (reg Sample.top_set)).
Proof. apply (clockRegister_feedback_15 Sample.mtab Sample.top_set). reflexivity. Defined.

(** C1, as stated, fails: with register[16] = 1 and every other word 0 the
    code places mtab[0] at position 16, the description mtab[0] xor 1;
    the two differ whatever the table holds. *)
Lemma clockRegister_feedback_16_fails :
  reg (clockRegister Sample.mtab Sample.top_set) !! 16%nat = Some 0 ∧
  reg (clock_with (feedback_described Sample.mtab) Sample.top_set) !! 16%nat
    = Some 1 ∧
  (∀ mtab : Z → Z,
     clockRegister mtab Sample.top_set
       ≠ clock_with (feedback_described mtab) Sample.top_set).
Proof.
  split; [reflexivity|]. split; [reflexivity|].
  intros mtab H. apply (f_equal (λ c, reg c !! 16%nat)) in H.
  injection H as H. change (Z.lxor 0 (mtab 0) = Z.lxor 1 (mtab 0)) in H.
  apply (f_equal (λ x, Z.lxor x (mtab 0))) in H. cbv beta in H.
  rewrite !Z.lxor_assoc, Z.lxor_nilpotent in H. discriminate H.
Qed.

(** ** One round *)

Lemma add32_wrap_l a b : add32 (wrap32 a) b = wrap32 (a + b).
Proof. unfold add32, wrap32. by rewrite Z.add_mod_idemp_l. Qed.

Lemma add32_wrap_r a b : add32 a (wrap32 b) = wrap32 (a + b).
Proof. unfold add32, wrap32. by rewrite Z.add_mod_idemp_r. Qed.

Lemma add32_add32_l a b c : add32 (add32 a b) c = wrap32 (a + b + c).
Proof. unfold add32 at 2. apply add32_wrap_l. Qed.

(** [e += a + b + c + d] on [uint32]. *)
Lemma add32_mix e a b c d :
  add32 e (add32 (add32 (add32 a b) c) d) = wrap32 (e + a + b + c + d).
Proof.
  unfold add32.
  assert (L : ∀ x y, wrap32 (wrap32 x + y) = wrap32 (x + y))
    by (intros; apply Z.add_mod_idemp_l; done).
  assert (R : ∀ x y, wrap32 (x + wrap32 y) = wrap32 (x + y))
    by (intros; apply Z.add_mod_idemp_r; done).
  rewrite (L (a + b) c), (L (a + b + c) d), R.
  apply (f_equal wrap32). lia.
Qed.

(** [splitWord] yields the big-endian octets. *)
Lemma splitWord_be32 w : splitWord w = be32 w.
Proof.
  unfold splitWord, be32, byte, shr32.
  change 0xff with (Z.ones 8).
  rewrite !Z.land_ones, !Z.shiftr_div_pow2 by lia.
  change (2 ^ 8) with 256. by rewrite !Z.mod_mod.
Qed.

Lemma keyedS_keybox c c' w r :
  keybox c = keybox c' → keyedS c w r = keyedS c' w r.
Proof. unfold keyedS. by intros ->. Qed.

(** The five [copy] calls overwrite the whole 20-byte buffer. *)
Lemma buffer_serialised (buf : list Z) a b c d e :
  length buf = 20%nat →
  copy_slice
    (copy_slice
      (copy_slice
        (copy_slice (copy_slice buf 0 4 (be32 a)) 4 8 (be32 b))
        8 12 (be32 c))
      12 16 (be32 d))
    16 20 (be32 e)
  = be32 a ++ be32 b ++ be32 c ++ be32 d ++ be32 e.
Proof. intros H. explode buf H. reflexivity. Qed.

Lemma clockRegister_iter_fields mtab n c :
  key (Nat.iter n (clockRegister mtab) c) = key c ∧
  keybox (Nat.iter n (clockRegister mtab) c) = keybox c ∧
  buffer (Nat.iter n (clockRegister mtab) c) = buffer c ∧
  bufpos (Nat.iter n (clockRegister mtab) c) = bufpos c ∧
  length (reg (Nat.iter n (clockRegister mtab) c)) = length (reg c).
Proof.
  induction n as [|n (K & KB & B & P & R)]; [done|].
  change (Nat.iter (S n) (clockRegister mtab) c)
    with (clockRegister mtab (Nat.iter n (clockRegister mtab) c)).
  destruct (clockRegister_fields mtab (Nat.iter n (clockRegister mtab) c))
    as (K' & KB' & B' & P' & R').
  rewrite K', KB', B', P', R'. done.
Qed.

(** The clock reads and writes the register only. *)
Lemma clockRegister_frame mtab x b p :
  clockRegister mtab (set_bufpos (set_buffer x b) p)
  = mkCipher (key x) (keybox x) (reg (clockRegister mtab x)) b p.
Proof. reflexivity. Qed.

(** A round, unfolded: the code against the description. *)
Lemma nextRound_as_described (mtab : Z → Z) (c : Cipher) :
  length (buffer c) = 20%nat →
  nextRound mtab c = round_described mtab c.
Proof.
  intros Hb. unfold nextRound, round_described.
  change (Nat.iter 1 (clockRegister mtab) c) with (clockRegister mtab c).
  change (Nat.iter 4 (clockRegister mtab) c)
    with (clockRegister mtab (clockRegister mtab (clockRegister mtab
            (clockRegister mtab c)))).
  change (Nat.iter 5 (clockRegister mtab) c)
    with (clockRegister mtab (clockRegister mtab (clockRegister mtab
            (clockRegister mtab (clockRegister mtab c))))).
  destruct (clockRegister_iter_fields mtab 1 c) as (K1 & KB1 & B1 & P1 & _).
  destruct (clockRegister_iter_fields mtab 4 c) as (K4 & KB4 & B4 & P4 & _).
  change (Nat.iter 1 (clockRegister mtab) c)
    with (clockRegister mtab c) in K1, KB1, B1, P1.
  change (Nat.iter 4 (clockRegister mtab) c)
    with (clockRegister mtab (clockRegister mtab (clockRegister mtab
            (clockRegister mtab c)))) in K4, KB4, B4, P4.
  set (c1 := clockRegister mtab c) in *.
  set (c4 := clockRegister mtab (clockRegister mtab (clockRegister mtab c1)))
    in *.
  rewrite !(keyedS_keybox c1 c) by done.
  rewrite !splitWord_be32, buffer_serialised by congruence.
  rewrite !add32_mix. unfold add32.
  rewrite clockRegister_frame, K4, KB4. reflexivity.
Qed.

(** C2: a round clocks the register once, reads the taps 16, 13, 6, 1, 0
    into a, b, c, d, e, computes e += a+b+c+d and adds e to a, b, c, d,
    substitutes the five words through the keyed tables with rotations
    0, 8, 16, 24, 0, mixes again, clocks three more times, adds the taps
    14, 12, 8, 1, 0, writes the five words as big-endian octets into the
    20-byte buffer, sets the cursor to 0 and clocks once more: five
    clocks of the register in all. *)
Theorem nextRound_round (mtab : Z → Z) (c : Cipher) :
  length (buffer c) = 20%nat →
  nextRound mtab c = round_described mtab c.
Proof.
  intros Hb. unfold nextRound, round_described.
  change (Nat.iter 1 (clockRegister mtab) c) with (clockRegister mtab c).
  change (Nat.iter 4 (clockRegister mtab) c)
    with (clockRegister mtab (clockRegister mtab (clockRegister mtab
            (clockRegister mtab c)))).
  change (Nat.iter 5 (clockRegister mtab) c)
    with (clockRegister mtab (clockRegister mtab (clockRegister mtab
            (clockRegister mtab (clockRegister mtab c))))).
  destruct (clockRegister_iter_fields mtab 1 c) as (K1 & KB1 & B1 & P1 & _).
  destruct (clockRegister_iter_fields mtab 4 c) as (K4 & KB4 & B4 & P4 & _).
  change (Nat.iter 1 (clockRegister mtab) c)
    with (clockRegister mtab c) in K1, KB1, B1, P1.
  change (Nat.iter 4 (clockRegister mtab) c)
    with (clockRegister mtab (clockRegister mtab (clockRegister mtab
            (clockRegister mtab c)))) in K4, KB4, B4, P4.
  set (c1 := clockRegister mtab c) in *.
  set (c4 := clockRegister mtab (clockRegister mtab (clockRegister mtab c1)))
    in *.
  rewrite !(keyedS_keybox c1 c) by done.
  rewrite !splitWord_be32, buffer_serialised by congruence.
  rewrite !add32_mix. unfold add32.
  rewrite clockRegister_frame, K4, KB4. reflexivity.
Qed.

Lemma nextRound_round_witness :
  nextRound Sample.mtab Sample.top_set
    = round_described Sample.mtab Sample.top_set.
Proof. apply (nextRound_round Sample.mtab Sample.top_set). reflexivity. Defined.

Lemma nextRound_fields mtab c :
  key (nextRound mtab c) = key c ∧
  keybox (nextRound mtab c) = keybox c ∧
  bufpos (nextRound mtab c) = 0 ∧
  length (reg (nextRound mtab c)) = length (reg c) ∧
  length (buffer (nextRound mtab c)) = length (buffer c).
Proof.
  unfold nextRound.
  destruct (clockRegister_iter_fields mtab 4 c) as (K4 & KB4 & B4 & P4 & R4).
  change (Nat.iter 4 (clockRegister mtab) c)
    with (clockRegister mtab (clockRegister mtab (clockRegister mtab
            (clockRegister mtab c)))) in K4, KB4, B4, P4, R4.
  set (c4 := clockRegister mtab (clockRegister mtab (clockRegister mtab
               (clockRegister mtab c)))) in *.
  match goal with |- context [set_buffer c4 ?b] => set (buf := b) end.
  assert (Hbuf : length buf = length (buffer c4)).
  { unfold buf, copy_slice. by rewrite !length_inserts. }
  clearbody buf c4. rewrite clockRegister_frame.
  cbn [key keybox reg buffer bufpos].
  destruct (clockRegister_fields mtab c4) as (_ & _ & _ & _ & R).
  rewrite K4, KB4, R, R4, Hbuf, B4. done.
Qed.

(** ** Reset *)

Lemma zero_fill (l : list Z) :
  for_range (length l) (λ i ks, <[i := 0]> ks) l = replicate (length l) 0.
Proof.
  enough (H : ∀ n, (n ≤ length l)%nat →
            for_range n (λ i ks, <[i := 0]> ks) l
            = replicate n 0 ++ drop n l).
  { rewrite H by lia. by rewrite drop_all, app_nil_r. }
  induction n as [|n IH]; intros Hn; [done|].
  rewrite for_range_S, IH by lia.
  destruct (lookup_lt_is_Some_2 l n) as [x Hx]; [lia|].
  rewrite (drop_S l x n Hx).
  rewrite insert_app_r_alt by (rewrite length_replicate; lia).
  rewrite length_replicate, Nat.sub_diag. cbn [insert list_insert].
  rewrite replicate_S_end, <- app_assoc. done.
Qed.

Lemma zero_fill_row (kb : list (list Z)) i m :
  for_range m (λ j kb, alter (λ row, <[j := 0]> row) i kb) kb
  = alter (for_range m (λ j row, <[j := 0]> row)) i kb.
Proof.
  induction m as [|m IH].
  - unfold for_range. cbn. by rewrite list_alter_id.
  - rewrite for_range_S, IH, list_alter_alter_eq.
    apply list_alter_ext; [|done]. intros row _. unfold compose.
    by rewrite for_range_S.
Qed.

Lemma zero_fill_rows (kb : list (list Z)) :
  for_range (length kb) (λ i kb,
    for_range (length (nth i kb [])) (λ j kb,
      alter (λ row, <[j := 0]> row) i kb) kb) kb
  = (λ row, replicate (length row) 0) <$> kb.
Proof.
  enough (H : ∀ n, (n ≤ length kb)%nat →
            for_range n (λ i kb,
              for_range (length (nth i kb [])) (λ j kb,
                alter (λ row, <[j := 0]> row) i kb) kb) kb
            = ((λ row, replicate (length row) 0) <$> take n kb) ++ drop n kb).
  { rewrite H by lia. by rewrite firstn_all, drop_all, app_nil_r. }
  induction n as [|n IH]; intros Hn; [done|].
  rewrite for_range_S, IH by lia.
  destruct (lookup_lt_is_Some_2 kb n) as [row Hrow]; [lia|].
  rewrite zero_fill_row.
  assert (Hlen : length ((λ row, replicate (length row) 0) <$> take n kb) = n)
    by (rewrite length_fmap, length_take; lia).
  rewrite (drop_S kb row n Hrow).
  assert (Hnth : nth n (((λ row, replicate (length row) 0) <$> take n kb)
                        ++ row :: drop (S n) kb) [] = row).
  { rewrite app_nth2 by lia. by rewrite Hlen, Nat.sub_diag. }
  rewrite Hnth.
  rewrite <- (Nat.add_0_r n) at 1. rewrite <- Hlen at 1.
  rewrite alter_app_r. cbn [alter list_alter].
  rewrite zero_fill, (take_S_r kb n row Hrow), fmap_app, <- app_assoc. done.
Qed.

Lemma Reset_fields c :
  Reset c = mkCipher (replicate (length (key c)) 0)
                     ((λ row, replicate (length row) 0) <$> keybox c)
                     (replicate (length (reg c)) 0)
                     (replicate (length (buffer c)) 0) 0.
Proof. unfold Reset. by rewrite !zero_fill, zero_fill_rows. Qed.

Lemma zero_rows (kb : list (list Z)) n :
  Forall (λ row, length row = n) kb →
  (λ row, replicate (length row) 0) <$> kb
  = replicate (length kb) (replicate n 0).
Proof.
  induction 1 as [|row kb Hrow _ IH]; [done|].
  rewrite fmap_cons, Hrow, IH. reflexivity.
Qed.

Lemma Reset_zero_state (c : Cipher) :
  shape c →
  Reset c = mkCipher (replicate (length (key c)) 0)
                     (replicate 4 (replicate 256 0))
                     (replicate reglen 0) (replicate 20 0) 0.
Proof.
  intros (Hkb & Hrows & Hreg & Hbuf).
  by rewrite Reset_fields, Hreg, Hbuf, (zero_rows _ _ Hrows), Hkb.
Qed.

(** C7: after [Reset] every word of the key material, every entry of the
    four 256-entry keyed tables, every word of the 17-word register,
    every byte of the 20-byte buffer and the cursor are zero. *)
Theorem Reset_all_zero (c : Cipher) :
  shape c →
  Reset c = mkCipher (replicate (length (key c)) 0)
                     (replicate 4 (replicate 256 0))
                     (replicate reglen 0) (replicate 20 0) 0.
Proof.
  intros (Hkb & Hrows & Hreg & Hbuf).
  by rewrite Reset_fields, Hreg, Hbuf, (zero_rows _ _ Hrows), Hkb.
Qed.

Lemma Reset_all_zero_witness :
  Reset Sample.top_set
  = mkCipher (replicate (length (key Sample.top_set)) 0)
             (replicate 4 (replicate 256 0))
             (replicate reglen 0) (replicate 20 0) 0.
Proof. apply (Reset_all_zero Sample.top_set). compute_done. Defined.

(** ** The keystream cursor *)

Lemma keystream_S mtab n c :
  keystream mtab (S n) c =
  let c1 := if bufpos c =? Z.of_nat (length (buffer c)) then nextRound mtab c
            else c in
  let r := keystream mtab n (set_bufpos c1 (bufpos c1 + 1)) in
  (fst r, at_ (buffer c1) (Z.to_nat (bufpos c1)) :: snd r).
Proof. cbn [keystream]. by destruct (keystream _ _ _). Qed.

Lemma keystream_length mtab n : ∀ c, length (snd (keystream mtab n c)) = n.
Proof.
  induction n as [|n IH]; intros c; [done|].
  rewrite keystream_S. cbn [snd length]. by rewrite IH.
Qed.

(** Before a byte is read, the cursor is strictly inside the buffer. *)
Lemma refill_cursor mtab c :
  cursor_ok c →
  let c1 := if bufpos c =? Z.of_nat (length (buffer c)) then nextRound mtab c
            else c in
  length (buffer c1) = 20%nat ∧ 0 ≤ bufpos c1 < 20.
Proof.
  intros [Hb Hp]. cbn zeta. rewrite Hb.
  destruct (Z.eqb_spec (bufpos c) (Z.of_nat 20)) as [E|E].
  - destruct (nextRound_fields mtab c) as (_ & _ & P & _ & B). lia.
  - lia.
Qed.

Lemma cursor_ok_advance c :
  length (buffer c) = 20%nat → 0 ≤ bufpos c < 20 →
  cursor_ok (set_bufpos c (bufpos c + 1)).
Proof. intros Hb Hp. split; cbn [set_bufpos buffer bufpos]; [done|lia]. Qed.

(** [XORKeyStream] writes the source XORed with the keystream over
    [dst], from index [i] on, and does not panic when [dst] is long
    enough. *)
Lemma xor_loop_keystream mtab src : ∀ i c dst,
  cursor_ok c → (i + length src ≤ length dst)%nat →
  xor_loop mtab i src c dst
  = Some (fst (keystream mtab (length src) c),
          list_inserts i
            (zip_with Z.lxor src (snd (keystream mtab (length src) c))) dst).
Proof.
  induction src as [|s src IH]; intros i c dst Hc Hlen; [done|].
  cbn [length] in Hlen. cbn [xor_loop length]. rewrite keystream_S.
  pose proof (refill_cursor mtab c Hc) as Hr. cbn zeta in Hr |- *.
  set (c1 := if bufpos c =? Z.of_nat (length (buffer c)) then nextRound mtab c
             else c) in *.
  destruct Hr as [Hb Hp].
  rewrite decide_True by lia.
  rewrite (lookup_at (buffer c1) (Z.to_nat (bufpos c1))) by lia.
  cbn [mbind option_bind]. rewrite store_Some by lia. cbn [mbind option_bind].
  rewrite IH; [|by apply cursor_ok_advance|rewrite length_insert; lia].
  cbn [fst snd zip_with list_inserts].
  by rewrite list_insert_inserts_lt by lia.
Qed.

Lemma keystream_cursor_ok mtab n : ∀ c,
  cursor_ok c → cursor_ok (fst (keystream mtab n c)).
Proof.
  induction n as [|n IH]; intros c Hc; [done|].
  rewrite keystream_S. cbn [fst].
  destruct (refill_cursor mtab c Hc) as [Hb Hp].
  apply IH. by apply cursor_ok_advance.
Qed.

Lemma keystream_add mtab n m : ∀ c,
  keystream mtab (n + m) c
  = (fst (keystream mtab m (fst (keystream mtab n c))),
     snd (keystream mtab n c)
       ++ snd (keystream mtab m (fst (keystream mtab n c)))).
Proof.
  induction n as [|n IH]; intros c.
  - cbn. by destruct (keystream mtab m c).
  - change (S n + m)%nat with (S (n + m)). rewrite !keystream_S.
    cbn zeta. rewrite IH. done.
Qed.

(** The fields that a stream call leaves alone. *)
Lemma keystream_fields mtab n : ∀ c,
  key (fst (keystream mtab n c)) = key c ∧
  keybox (fst (keystream mtab n c)) = keybox c ∧
  length (reg (fst (keystream mtab n c))) = length (reg c) ∧
  length (buffer (fst (keystream mtab n c))) = length (buffer c).
Proof.
  induction n as [|n IH]; intros c; [done|].
  rewrite keystream_S. cbn [fst].
  match goal with |- context [keystream mtab n ?x] =>
    destruct (IH x) as (K & KB & R & B) end.
  rewrite K, KB, R, B. cbn [set_bufpos key keybox reg buffer].
  destruct (bufpos c =? Z.of_nat (length (buffer c))); [|done].
  destruct (nextRound_fields mtab c) as (-> & -> & _ & -> & ->). done.
Qed.

(** While the cursor stays within the buffer no round is generated. *)
Lemma keystream_within_buffer mtab n : ∀ c,
  cursor_ok c → bufpos c + Z.of_nat n ≤ 20 →
  keystream mtab n c
  = (set_bufpos c (bufpos c + Z.of_nat n),
     take n (drop (Z.to_nat (bufpos c)) (buffer c))).
Proof.
  induction n as [|n IH]; intros c [Hb Hp] Hn.
  - cbn [keystream take]. rewrite Z.add_0_r. by destruct c.
  - rewrite keystream_S. cbn zeta. rewrite Hb.
    destruct (Z.eqb_spec (bufpos c) (Z.of_nat 20)) as [E|E]; [lia|].
    rewrite IH; [|apply cursor_ok_advance; lia|cbn [set_bufpos bufpos]; lia].
    cbn [fst snd set_bufpos bufpos buffer key keybox reg].
    f_equal; [f_equal; lia|].
    replace (Z.to_nat (bufpos c + 1)) with (S (Z.to_nat (bufpos c))) by lia.
    rewrite (drop_S (buffer c) (at_ (buffer c) (Z.to_nat (bufpos c)))
               (Z.to_nat (bufpos c))) by (apply lookup_at; lia).
    done.
Qed.

Lemma xor_twice (src ks : list Z) :
  length src = length ks →
  zip_with Z.lxor (zip_with Z.lxor src ks) ks = src.
Proof.
  revert ks. induction src as [|s src IH]; intros [|k ks] H; try done.
  cbn [zip_with]. rewrite IH by (cbn [length] in H; lia).
  by rewrite Z.lxor_assoc, Z.lxor_nilpotent, Z.lxor_0_r.
Qed.

(** ** Construction *)

Lemma hadamard_Some (words : list Z) :
  (0 < length words)%nat →
  ∃ ws, hadamard words = Some ws ∧ length ws = length words.
Proof.
  intros Hlen. unfold hadamard. rewrite store_Some by lia.
  cbn [mbind option_bind]. eexists. split; [reflexivity|].
  rewrite length_insert.
  apply (for_range_ind (λ _ ws, length ws = length words)).
  - by rewrite length_insert.
  - intros i t _ Ht. by rewrite length_insert.
Qed.

(** The rows keep their lengths when entries are overwritten. *)
Lemma alter_insert_shape (kb : list (list Z)) n box i v :
  Forall (λ row, length row = n) kb →
  Forall (λ row, length row = n) (alter (λ row, <[i := v]> row) box kb).
Proof.
  intros H. apply Forall_alter; [done|].
  intros row _ Hrow. by rewrite length_insert.
Qed.

Lemma initKey_Some sbox qbox c k :
  (0 < length k / 4)%nat →
  ∃ c', initKey sbox qbox c k = Some c' ∧
        length (key c') = (length k / 4)%nat ∧
        length (keybox c') = length (keybox c) ∧
        (∀ n, Forall (λ row, length row = n) (keybox c) →
              Forall (λ row, length row = n) (keybox c')) ∧
        reg c' = reg c ∧ buffer c' = buffer c ∧ bufpos c' = bufpos c.
Proof.
  intros Hk. unfold initKey.
  set (ks0 := for_range _ _ (replicate (length k / 4) 0)).
  assert (Hks0 : length ks0 = (length k / 4)%nat).
  { unfold ks0.
    apply (for_range_ind (λ _ ks, length ks = (length k / 4)%nat)).
    - apply length_replicate.
    - intros i t _ Ht. by rewrite length_insert. }
  destruct (hadamard_Some ks0) as (ks & -> & Hks); [lia|].
  cbn [mbind option_bind]. eexists. split; [reflexivity|].
  cbn [set_keybox set_key key keybox reg buffer bufpos].
  split; [lia|].
  split; [|split; [|done]].
  - apply (for_range_ind (λ _ kb, length kb = length (keybox c))); [done|].
    intros box kb _ Hkb.
    apply (for_range_ind (λ _ kb, length kb = length (keybox c))); [done|].
    intros i kb' _ Hkb'. destruct (foldl _ _ _) as [o w].
    by rewrite length_alter.
  - intros n Hn.
    apply (for_range_ind (λ _ kb, Forall (λ row, length row = n) kb)); [done|].
    intros box kb _ Hkb.
    apply (for_range_ind (λ _ kb, Forall (λ row, length row = n) kb)); [done|].
    intros i kb' _ Hkb'. destruct (foldl _ _ _) as [o w].
    by apply alter_insert_shape.
Qed.

(** A run of stores at [base], [base+1], ... within the array. *)
Lemma stores_Some (f : nat → Z) base n (rg : list Z) :
  (base + n ≤ length rg)%nat →
  ∃ rg', for_rangeM n (λ i rg, store rg (base + i) (f i)) rg = Some rg' ∧
         length rg' = length rg.
Proof.
  intros Hn.
  apply (for_rangeM_ind (λ _ t, length t = length rg)); [done|].
  intros i t Hi Ht. exists (<[(base + i)%nat := f i]> t).
  rewrite store_Some by lia. by rewrite length_insert.
Qed.

Lemma initIV_Some sbox qbox c iv :
  length (reg c) = reglen →
  (length iv / 4 + length (key c) + 1 ≤ reglen)%nat →
  ∃ c', initIV sbox qbox c iv = Some c' ∧ key c' = key c ∧ keybox c' = keybox c ∧
        buffer c' = buffer c ∧ bufpos c' = bufpos c ∧
        length (reg c') = reglen.
Proof.
  intros Hreg Hn. unfold initIV.
  destruct (stores_Some (λ i, fixedS sbox qbox (joinWord (quad iv i))) 0
              (length iv / 4) (reg c)) as (r1 & -> & H1); [lia|].
  cbn [mbind option_bind].
  destruct (stores_Some (λ i, at_ (key c) i) (0 + length iv / 4)
              (length (key c)) r1) as (r2 & -> & H2); [lia|].
  cbn [mbind option_bind]. rewrite store_Some by lia.
  cbn [mbind option_bind].
  match goal with |- context [hadamard ?x] =>
    destruct (hadamard_Some x) as (r4 & -> & H4) end.
  - eapply Nat.lt_le_trans; [|apply Nat.eq_le_incl; symmetry].
    2:{ apply (for_range_ind (λ _ t, length t = reglen)).
        - rewrite length_insert. lia.
        - intros i t _ Ht. by rewrite length_insert. }
    unfold reglen. lia.
  - cbn [mbind option_bind]. eexists. split; [reflexivity|].
    cbn [set_reg key keybox reg buffer bufpos]. repeat split.
    rewrite H4.
    apply (for_range_ind (λ _ t, length t = reglen)).
    + rewrite length_insert. lia.
    + intros i t _ Ht. by rewrite length_insert.
Qed.

Lemma zeroCipher_shape : shape zeroCipher.
Proof. compute_done. Qed.

Lemma valid_sizes_words k iv :
  valid_sizes k iv →
  (2 ≤ length k / 4 ≤ 8)%nat ∧ (length iv / 4 + length k / 4 + 1 ≤ reglen)%nat.
Proof.
  unfold valid_sizes, reglen. intros (H1 & H2 & H3 & H4 & H5).
  pose proof (Nat.div_mod_eq (length k) 4).
  pose proof (Nat.div_mod_eq (length iv) 4).
  pose proof (Nat.mod_upper_bound (length k) 4).
  pose proof (Nat.mod_upper_bound (length iv) 4).
  lia.
Qed.

(** What [NewCipher] does once the sizes have passed validation: it builds
    the state from the zero value and runs one round. *)
Lemma NewCipher_cases sbox qbox mtab k iv :
  NewCipher sbox qbox mtab k iv
  = match first_violation (Z.of_nat (length k)) (Z.of_nat (length iv)) with
    | Some msg => Failed msg
    | None =>
      match initKey sbox qbox zeroCipher k ≫= (λ c, initIV sbox qbox c iv) with
      | Some c => Ready (nextRound mtab c)
      | None => Panicked
      end
    end.
Proof.
  unfold NewCipher, first_violation, minkey, maxkey, maxiv.
  rewrite !Z.rem_mod_nonneg, !Z.gtb_ltb by lia.
  repeat case_decide;
    repeat match goal with
           | |- context [?a =? ?b] => destruct (Z.eqb_spec a b)
           | |- context [?a <? ?b] => destruct (Z.ltb_spec a b)
           end; cbn [negb]; try lia; reflexivity.
Qed.

Lemma first_violation_None k iv :
  first_violation (Z.of_nat (length k)) (Z.of_nat (length iv)) = None
  ↔ valid_sizes k iv.
Proof.
  unfold first_violation, valid_sizes.
  repeat case_decide; split; intros Hx; try discriminate Hx; try lia; done.
Qed.

Lemma NewCipher_valid sbox qbox mtab k iv :
  valid_sizes k iv →
  ∃ c0, initKey sbox qbox zeroCipher k ≫= (λ c, initIV sbox qbox c iv)
          = Some c0 ∧
        NewCipher sbox qbox mtab k iv = Ready (nextRound mtab c0) ∧
        shape c0 ∧ (2 ≤ length (key c0) ≤ 8)%nat.
Proof.
  intros Hv. destruct (valid_sizes_words k iv Hv) as [Hk Hr].
  destruct zeroCipher_shape as (Zkb & Zrows & Zreg & Zbuf).
  destruct (initKey_Some sbox qbox zeroCipher k)
    as (c1 & E1 & K1 & KB1 & Rows1 & R1 & B1 & P1); [lia|].
  destruct (initIV_Some sbox qbox c1 iv)
    as (c2 & E2 & K2 & KB2 & B2 & P2 & R2); [congruence|lia|].
  exists c2. rewrite NewCipher_cases.
  apply first_violation_None in Hv. rewrite Hv, E1. cbn [mbind option_bind].
  rewrite E2. repeat split; try congruence; try (rewrite K2, K1; lia).
  rewrite KB2. by apply Rows1.
Qed.

Lemma nextRound_invariant mtab c :
  shape c → (2 ≤ length (key c) ≤ 8)%nat → invariant (nextRound mtab c).
Proof.
  intros (Hkb & Hrows & Hreg & Hbuf) Hk.
  destruct (nextRound_fields mtab c) as (K & KB & P & R & B).
  unfold invariant, shape. rewrite K, KB, P, R, B. repeat split; done || lia.
Qed.

Lemma NewCipher_Ready sbox qbox mtab k iv c :
  NewCipher sbox qbox mtab k iv = Ready c →
  valid_sizes k iv ∧ invariant c ∧ bufpos c = 0.
Proof.
  intros H. rewrite NewCipher_cases in H.
  destruct (first_violation _ _) eqn:Hv; [discriminate H|].
  apply first_violation_None in Hv. split; [done|].
  destruct (NewCipher_valid sbox qbox mtab k iv Hv) as (c0 & E & _ & Hs & Hk).
  rewrite E in H. injection H as <-.
  split; [by apply nextRound_invariant|].
  by destruct (nextRound_fields mtab c0) as (_ & _ & P & _).
Qed.

Lemma invariant_cursor_ok c : invariant c → cursor_ok c.
Proof. intros ((_ & _ & _ & Hb) & _ & Hp). by split. Qed.

Lemma xor_loop_invariant mtab src : ∀ i c dst c' out,
  invariant c → xor_loop mtab i src c dst = Some (c', out) →
  invariant c' ∧ length out = length dst.
Proof.
  induction src as [|s src IH]; intros i c dst c' out Hinv H.
  - injection H as <- <-. done.
  - cbn [xor_loop] in H.
    pose proof (refill_cursor mtab c (invariant_cursor_ok c Hinv)) as Hr.
    cbn zeta in Hr.
    assert (Hinv1 : invariant
              (if bufpos c =? Z.of_nat (length (buffer c))
               then nextRound mtab c else c)).
    { destruct (bufpos c =? _); [|done].
      destruct Hinv as (Hs & Hk & _). by apply nextRound_invariant. }
    set (c1 := if bufpos c =? Z.of_nat (length (buffer c)) then nextRound mtab c
               else c) in *.
    destruct Hr as [Hb Hp]. rewrite decide_True in H by lia.
    destruct (buffer c1 !! Z.to_nat (bufpos c1)) as [kb|]; [|discriminate H].
    cbn [mbind option_bind] in H. unfold store in H.
    case_decide; [|discriminate H]. cbn [mbind option_bind] in H.
    apply IH in H.
    + by rewrite length_insert in H.
    + destruct Hinv1 as (Hs & Hk & _). split; [exact Hs|]. split; [exact Hk|].
      cbn [set_bufpos bufpos]. lia.
Qed.

Lemma Reset_invariant c : invariant c → invariant (Reset c).
Proof.
  intros (Hs & Hk & Hp). rewrite (Reset_zero_state c Hs).
  unfold invariant, shape. cbn [key keybox reg buffer bufpos].
  rewrite !length_replicate. repeat split; try done; try lia.
  apply Forall_replicate. apply length_replicate.
Qed.

(** Under the contract of [XORKeyStream] ([dst] at least as long as
    [src]) a call on a cipher that satisfies the invariants returns. *)
Lemma XORKeyStream_Some mtab c dst src :
  cursor_ok c → (length src ≤ length dst)%nat →
  XORKeyStream mtab c dst src
  = Some (fst (keystream mtab (length src) c),
          zip_with Z.lxor src (snd (keystream mtab (length src) c))
            ++ drop (length src) dst).
Proof.
  intros Hc Hlen. unfold XORKeyStream.
  rewrite xor_loop_keystream by (done || lia). do 2 f_equal.
  rewrite <- (take_drop (length src) dst) at 1.
  apply list_inserts_0_r.
  rewrite length_zip_with_l_eq by (by rewrite keystream_length).
  rewrite length_take. lia.
Qed.

Lemma reachable_invariant mtab c c' :
  invariant c → rtc (op_step mtab) c c' → invariant c'.
Proof.
  intros Hinv Hsteps. induction Hsteps as [|c c1 c' Hstep _ IH]; [done|].
  apply IH. destruct Hstep as [c dst src c1 out H|c].
  - unfold XORKeyStream in H.
    by destruct (xor_loop_invariant mtab src 0 c dst c1 out Hinv H).
  - by apply Reset_invariant.
Qed.

(** A call on [s1 ++ s2] is the call on [s1] followed by the call on
    [s2]. *)
Lemma XORKeyStream_app mtab c s1 s2 d1 d2 :
  cursor_ok c → length d1 = length s1 → length d2 = length s2 →
  ∃ c1 o1 c2 o2,
    XORKeyStream mtab c d1 s1 = Some (c1, o1) ∧
    XORKeyStream mtab c1 d2 s2 = Some (c2, o2) ∧
    XORKeyStream mtab c (d1 ++ d2) (s1 ++ s2) = Some (c2, o1 ++ o2).
Proof.
  intros Hc H1 H2.
  pose proof (keystream_cursor_ok mtab (length s1) c Hc) as Hc1.
  do 4 eexists.
  rewrite !XORKeyStream_Some by (done || rewrite ?length_app; lia).
  split; [reflexivity|]. split; [reflexivity|].
  rewrite length_app, keystream_add. cbn [fst snd].
  rewrite zip_with_app by (by rewrite keystream_length).
  rewrite <- H1, <- H2, <- length_app, !drop_all, !app_nil_r. done.
Qed.

(** ** The public contract *)

(** C3: [NewCipher] checks the five size constraints in the stated order
    and returns the size error of the first one that fails: key length a
    multiple of 4, IV length a multiple of 4, key length >= 8, key
    length <= 32, key plus IV length <= 48.  It succeeds exactly when
    all five hold, and on a cipher so constructed no operation fails:
    whatever calls came before, [XORKeyStream] returns for every source
    that fits its destination ([Reset] has no failure at all). *)
Theorem NewCipher_validation (sbox qbox mtab : Z → Z) (k iv : list Z) :
  (first_violation (Z.of_nat (length k)) (Z.of_nat (length iv)) = None
   ↔ valid_sizes k iv) ∧
  match first_violation (Z.of_nat (length k)) (Z.of_nat (length iv)) with
  | Some msg => NewCipher sbox qbox mtab k iv = Failed msg
  | None =>
    ∃ c, NewCipher sbox qbox mtab k iv = Ready c ∧
         ∀ c', rtc (op_step mtab) c c' →
           ∀ dst src, (length src ≤ length dst)%nat →
             is_Some (XORKeyStream mtab c' dst src)
  end.
Proof.
  split; [apply first_violation_None|].
  destruct (first_violation _ _) eqn:Hv.
  - by rewrite NewCipher_cases, Hv.
  - apply first_violation_None in Hv.
    destruct (NewCipher_valid sbox qbox mtab k iv Hv) as (c0 & _ & E & Hs & Hk).
    exists (nextRound mtab c0). split; [exact E|].
    intros c' Hsteps dst src Hlen.
    assert (Hinv : invariant c').
    { eapply reachable_invariant; [|exact Hsteps].
      by apply nextRound_invariant. }
    rewrite XORKeyStream_Some by (by apply invariant_cursor_ok || done).
    by eexists.
Qed.

(** C4: for a valid key/IV pair, applying the stream to [src] with a
    freshly constructed cipher and applying it to the result with a
    second cipher constructed from the same key and IV gives [src]
    back. *)
Theorem XORKeyStream_involution (sbox qbox mtab : Z → Z)
    (k iv src dst1 dst2 : list Z) :
  valid_sizes k iv → length dst1 = length src → length dst2 = length src →
  ∃ c, NewCipher sbox qbox mtab k iv = Ready c ∧
    ∀ c', NewCipher sbox qbox mtab k iv = Ready c' →
      ∃ c1 c2 out,
        XORKeyStream mtab c dst1 src = Some (c1, out) ∧
        XORKeyStream mtab c' dst2 out = Some (c2, src).
Proof.
  intros Hv H1 H2.
  destruct (NewCipher_valid sbox qbox mtab k iv Hv) as (c0 & _ & E & Hs & Hk).
  exists (nextRound mtab c0). split; [exact E|].
  intros c' E'. rewrite E in E'. injection E' as <-.
  pose proof (invariant_cursor_ok _ (nextRound_invariant mtab c0 Hs Hk)) as Hc.
  set (c := nextRound mtab c0) in *.
  set (ks := snd (keystream mtab (length src) c)).
  assert (Hks : length ks = length src) by apply keystream_length.
  exists (fst (keystream mtab (length src) c)),
         (fst (keystream mtab (length src) c)), (zip_with Z.lxor src ks).
  assert (Hout : length (zip_with Z.lxor src ks) = length src)
    by (by rewrite length_zip_with_l_eq).
  assert (D1 : drop (length src) dst1 = [])
    by (rewrite <- H1; apply drop_all).
  assert (D2 : drop (length src) dst2 = [])
    by (rewrite <- H2; apply drop_all).
  rewrite !XORKeyStream_Some by (done || lia).
  rewrite Hout. fold ks.
  by rewrite D1, D2, !app_nil_r, xor_twice.
Qed.

Lemma XORKeyStream_involution_witness :
  ∃ c, NewCipher Sample.sbox Sample.qbox Sample.mtab Sample.key8 Sample.iv4
       = Ready c ∧
    ∀ c', NewCipher Sample.sbox Sample.qbox Sample.mtab Sample.key8 Sample.iv4
          = Ready c' →
      ∃ c1 c2 out,
        XORKeyStream Sample.mtab c [0; 0; 0] [104; 105; 33] = Some (c1, out) ∧
        XORKeyStream Sample.mtab c' [0; 0; 0] out = Some (c2, [104; 105; 33]).
Proof.
  apply (XORKeyStream_involution Sample.sbox Sample.qbox Sample.mtab
           Sample.key8 Sample.iv4 [104; 105; 33] [0; 0; 0] [0; 0; 0]);
    [compute_done|reflexivity|reflexivity].
Defined.

(** C5: two ciphers constructed from the same valid key and IV produce
    the same keystream for every length [n], and XORing the same input
    through both gives the same output. *)
Theorem keystream_deterministic (sbox qbox mtab : Z → Z)
    (k iv : list Z) (n : nat) (dst src : list Z) :
  valid_sizes k iv → (length src ≤ length dst)%nat →
  ∃ c c1 ks,
    NewCipher sbox qbox mtab k iv = Ready c ∧
    XORKeyStream mtab c (replicate n 0) (replicate n 0) = Some (c1, ks) ∧
    length ks = n ∧
    is_Some (XORKeyStream mtab c dst src) ∧
    ∀ c', NewCipher sbox qbox mtab k iv = Ready c' →
      XORKeyStream mtab c' (replicate n 0) (replicate n 0) = Some (c1, ks) ∧
      XORKeyStream mtab c' dst src = XORKeyStream mtab c dst src.
Proof.
  intros Hv Hlen.
  destruct (NewCipher_valid sbox qbox mtab k iv Hv) as (c0 & _ & E & Hs & Hk).
  pose proof (invariant_cursor_ok _ (nextRound_invariant mtab c0 Hs Hk)) as Hc.
  exists (nextRound mtab c0). do 2 eexists.
  split; [exact E|].
  rewrite !XORKeyStream_Some by (done || rewrite ?length_replicate; lia).
  split; [reflexivity|].
  split.
  { rewrite length_app, length_zip_with_l_eq, length_drop, !length_replicate;
      [lia|].
    by rewrite keystream_length, length_replicate. }
  split; [by eexists|].
  intros c' E'. rewrite E in E'. injection E' as <-.
  by rewrite !XORKeyStream_Some by (done || rewrite ?length_replicate; lia).
Qed.

Lemma keystream_deterministic_witness :
  ∃ c c1 ks,
    NewCipher Sample.sbox Sample.qbox Sample.mtab Sample.key8 Sample.iv4
      = Ready c ∧
    XORKeyStream Sample.mtab c (replicate 30 0) (replicate 30 0)
      = Some (c1, ks) ∧
    length ks = 30%nat ∧
    is_Some (XORKeyStream Sample.mtab c [0; 0; 0] [104; 105; 33]) ∧
    ∀ c', NewCipher Sample.sbox Sample.qbox Sample.mtab Sample.key8 Sample.iv4
          = Ready c' →
      XORKeyStream Sample.mtab c' (replicate 30 0) (replicate 30 0)
        = Some (c1, ks) ∧
      XORKeyStream Sample.mtab c' [0; 0; 0] [104; 105; 33]
        = XORKeyStream Sample.mtab c [0; 0; 0] [104; 105; 33].
Proof.
  apply (keystream_deterministic Sample.sbox Sample.qbox Sample.mtab
           Sample.key8 Sample.iv4 30 [0; 0; 0] [104; 105; 33]);
    [compute_done|cbn [length]; lia].
Defined.

(** C6: for a valid key/IV pair, 25 keystream bytes requested in one
    call are the 12 bytes and the 13 bytes of two consecutive calls on a
    cipher constructed from the same key and IV; in general a call on
    [s1 ++ s2] gives what the call on [s1] followed by the call on [s2]
    gives, and leaves the same cipher. *)
Theorem keystream_split (sbox qbox mtab : Z → Z) (k iv : list Z) :
  valid_sizes k iv →
  ∃ c, NewCipher sbox qbox mtab k iv = Ready c ∧
    (∀ c', NewCipher sbox qbox mtab k iv = Ready c' →
       ∃ c1 c2 ks12 ks13,
         XORKeyStream mtab c' (replicate 12 0) (replicate 12 0)
           = Some (c1, ks12) ∧
         XORKeyStream mtab c1 (replicate 13 0) (replicate 13 0)
           = Some (c2, ks13) ∧
         XORKeyStream mtab c (replicate 25 0) (replicate 25 0)
           = Some (c2, ks12 ++ ks13)) ∧
    (∀ s1 s2 d1 d2, length d1 = length s1 → length d2 = length s2 →
       ∃ c1 o1 c2 o2,
         XORKeyStream mtab c d1 s1 = Some (c1, o1) ∧
         XORKeyStream mtab c1 d2 s2 = Some (c2, o2) ∧
         XORKeyStream mtab c (d1 ++ d2) (s1 ++ s2) = Some (c2, o1 ++ o2)).
Proof.
  intros Hv.
  destruct (NewCipher_valid sbox qbox mtab k iv Hv) as (c0 & _ & E & Hs & Hk).
  pose proof (invariant_cursor_ok _ (nextRound_invariant mtab c0 Hs Hk)) as Hc.
  exists (nextRound mtab c0). split; [exact E|]. split.
  - intros c' E'. rewrite E in E'. injection E' as <-.
    destruct (XORKeyStream_app mtab (nextRound mtab c0)
                (replicate 12 0) (replicate 13 0)
                (replicate 12 0) (replicate 13 0) Hc eq_refl eq_refl)
      as (c1 & o1 & c2 & o2 & X1 & X2 & X).
    exists c1, c2, o1, o2. rewrite <- replicate_add in X. done.
  - intros s1 s2 d1 d2 H1 H2. by apply XORKeyStream_app.
Qed.

Lemma keystream_split_witness :
  ∃ c, NewCipher Sample.sbox Sample.qbox Sample.mtab Sample.key8 Sample.iv4
       = Ready c ∧
    (∀ c', NewCipher Sample.sbox Sample.qbox Sample.mtab Sample.key8
             Sample.iv4 = Ready c' →
       ∃ c1 c2 ks12 ks13,
         XORKeyStream Sample.mtab c' (replicate 12 0) (replicate 12 0)
           = Some (c1, ks12) ∧
         XORKeyStream Sample.mtab c1 (replicate 13 0) (replicate 13 0)
           = Some (c2, ks13) ∧
         XORKeyStream Sample.mtab c (replicate 25 0) (replicate 25 0)
           = Some (c2, ks12 ++ ks13)) ∧
    (∀ s1 s2 d1 d2, length d1 = length s1 → length d2 = length s2 →
       ∃ c1 o1 c2 o2,
         XORKeyStream Sample.mtab c d1 s1 = Some (c1, o1) ∧
         XORKeyStream Sample.mtab c1 d2 s2 = Some (c2, o2) ∧
         XORKeyStream Sample.mtab c (d1 ++ d2) (s1 ++ s2)
           = Some (c2, o1 ++ o2)).
Proof.
  apply (keystream_split Sample.sbox Sample.qbox Sample.mtab
           Sample.key8 Sample.iv4).
  compute_done.
Defined.

(** C8: construction yields a cipher that satisfies the state
    invariants, and stream application and reset preserve them: key
    material of 2 to 8 words, a register of 17 words, 4 keyed tables of
    256 words, a cursor between 0 and 20. *)
Theorem invariant_preserved (sbox qbox mtab : Z → Z)
    (k iv : list Z) (c c' : Cipher) :
  NewCipher sbox qbox mtab k iv = Ready c →
  rtc (op_step mtab) c c' →
  (2 ≤ length (key c') ≤ 8)%nat ∧
  length (reg c') = 17%nat ∧
  length (keybox c') = 4%nat ∧
  Forall (λ row, length row = 256%nat) (keybox c') ∧
  0 ≤ bufpos c' ≤ 20.
Proof.
  intros E Hsteps.
  destruct (NewCipher_Ready sbox qbox mtab k iv c E) as (_ & Hinv & _).
  destruct (reachable_invariant mtab c c' Hinv Hsteps)
    as ((Hkb & Hrows & Hreg & _) & Hk & Hp).
  done.
Qed.

Lemma invariant_preserved_witness :
  (2 ≤ length (key (Reset Sample.cipher84)) ≤ 8)%nat ∧
  length (reg (Reset Sample.cipher84)) = 17%nat ∧
  length (keybox (Reset Sample.cipher84)) = 4%nat ∧
  Forall (λ row, length row = 256%nat) (keybox (Reset Sample.cipher84)) ∧
  0 ≤ bufpos (Reset Sample.cipher84) ≤ 20.
Proof.
  apply (invariant_preserved Sample.sbox Sample.qbox Sample.mtab
           Sample.key8 Sample.iv4 Sample.cipher84 (Reset Sample.cipher84)).
  - vm_compute. reflexivity.
  - apply rtc_once, op_reset.
Defined.

(** C9: a call with an empty source returns the cipher as it was
    (register, buffer, cursor, key material and keyed tables) and leaves
    [dst] alone; no round is generated, whatever the cursor. *)
Theorem XORKeyStream_empty (mtab : Z → Z) (c : Cipher) (dst : list Z) :
  XORKeyStream mtab c dst [] = Some (c, dst) ∧
  XORKeyStream mtab (set_bufpos c 20) dst [] = Some (set_bufpos c 20, dst).
Proof. split; reflexivity. Qed.

(** C10: successful construction has run one round: the cursor is 0 and
    the 20-byte buffer holds the first round's keystream, so a first
    call on at most 20 bytes XORs them with the head of that buffer and
    moves the cursor only; register and buffer stay as they are. *)
Theorem NewCipher_first_round (sbox qbox mtab : Z → Z) (k iv : list Z) :
  valid_sizes k iv →
  ∃ c0 c,
    initKey sbox qbox zeroCipher k ≫= (λ c, initIV sbox qbox c iv) = Some c0 ∧
    NewCipher sbox qbox mtab k iv = Ready c ∧
    c = nextRound mtab c0 ∧
    bufpos c = 0 ∧
    length (buffer c) = 20%nat ∧
    buffer c = buffer (round_described mtab c0) ∧
    ∀ dst src, (length src ≤ 20)%nat → (length src ≤ length dst)%nat →
      XORKeyStream mtab c dst src
      = Some (set_bufpos c (Z.of_nat (length src)),
              zip_with Z.lxor src (buffer c) ++ drop (length src) dst).
Proof.
  intros Hv.
  destruct (NewCipher_valid sbox qbox mtab k iv Hv) as (c0 & E0 & E & Hs & Hk).
  pose proof (nextRound_invariant mtab c0 Hs Hk) as Hinv.
  pose proof (invariant_cursor_ok _ Hinv) as Hc.
  destruct (nextRound_fields mtab c0) as (_ & _ & P & _ & _).
  destruct Hs as (_ & _ & _ & Hb0).
  exists c0, (nextRound mtab c0).
  split; [exact E0|]. split; [exact E|]. split; [reflexivity|].
  split; [exact P|]. split; [apply Hc|].
  split; [by rewrite nextRound_round|].
  intros dst src H20 Hlen.
  rewrite XORKeyStream_Some by done.
  rewrite keystream_within_buffer by (done || lia).
  cbn [fst snd]. rewrite P. cbn [Z.to_nat drop]. rewrite Z.add_0_l.
  by rewrite zip_with_take_r.
Qed.

Lemma NewCipher_first_round_witness :
  ∃ c0 c,
    initKey Sample.sbox Sample.qbox zeroCipher Sample.key8
      ≫= (λ c, initIV Sample.sbox Sample.qbox c Sample.iv4) = Some c0 ∧
    NewCipher Sample.sbox Sample.qbox Sample.mtab Sample.key8 Sample.iv4
      = Ready c ∧
    c = nextRound Sample.mtab c0 ∧
    bufpos c = 0 ∧
    length (buffer c) = 20%nat ∧
    buffer c = buffer (round_described Sample.mtab c0) ∧
    ∀ dst src, (length src ≤ 20)%nat → (length src ≤ length dst)%nat →
      XORKeyStream Sample.mtab c dst src
      = Some (set_bufpos c (Z.of_nat (length src)),
              zip_with Z.lxor src (buffer c) ++ drop (length src) dst).
Proof.
  apply (NewCipher_first_round Sample.sbox Sample.qbox Sample.mtab
           Sample.key8 Sample.iv4).
  compute_done.
Defined.

(** * Further properties *)

(** ** util.go: octets and rotations *)

(** A [uint32] has no bit at position 32 or above. *)
Lemma word_high_bits w i : 0 ≤ w < 2 ^ 32 → 32 ≤ i → Z.testbit w i = false.
Proof.
  intros Hw Hi. rewrite <- (Z.mod_small w (2 ^ 32)) by lia.
  apply Z.mod_pow2_bits_high. lia.
Qed.

Lemma byte_high_bits o i : 0 ≤ o < 256 → 8 ≤ i → Z.testbit o i = false.
Proof.
  intros Ho Hi. rewrite <- (Z.mod_small o (2 ^ 8)) by lia.
  apply Z.mod_pow2_bits_high. lia.
Qed.

Lemma usub_small a b : 0 ≤ b ≤ a → a < 2 ^ 64 → usub a b = a - b.
Proof. intros. unfold usub. apply Z.mod_small. lia. Qed.

(** X1: packing the four octets of a word gives the word back. *)
Theorem joinWord_splitWord (w : Z) :
  0 ≤ w < 2 ^ 32 → joinWord (quad (splitWord w) 0) = w.
Proof.
  intros Hw. unfold quad, splitWord, at_. cbn [nth Nat.mul Nat.add].
  unfold joinWord, shl32, shr32, byte, wrap32.
  change (32 <=? 24) with false. change (32 <=? 16) with false.
  change (32 <=? 8) with false. cbv iota.
  change 256 with (2 ^ 8). change 0xff with (Z.ones 8).
  pose proof (word_high_bits w) as Hhi.
  Z.bitblast. all: by rewrite Hhi by lia.
Qed.

Lemma joinWord_splitWord_witness :
  joinWord (quad (splitWord 0x01020304) 0) = 0x01020304.
Proof. apply (joinWord_splitWord 0x01020304). lia. Defined.

(** X2: splitting a word packed from four bytes gives the bytes back,
    most significant first. *)
Theorem splitWord_joinWord (o0 o1 o2 o3 : Z) :
  0 ≤ o0 < 256 → 0 ≤ o1 < 256 → 0 ≤ o2 < 256 → 0 ≤ o3 < 256 →
  splitWord (joinWord (o0, o1, o2, o3)) = [o0; o1; o2; o3].
Proof.
  intros H0 H1 H2 H3.
  unfold splitWord, joinWord, shl32, shr32, byte, wrap32.
  change (32 <=? 24) with false. change (32 <=? 16) with false.
  change (32 <=? 8) with false. cbv iota.
  change 256 with (2 ^ 8). change 0xff with (Z.ones 8).
  repeat f_equal.
  all: Z.bitblast.
  all: repeat match goal with
       | |- context [Z.testbit ?o ?i] =>
         first [rewrite (byte_high_bits o i) by lia
               |rewrite (Z.testbit_neg_r o i) by lia]
       end; try reflexivity.
  all: match goal with |- context [Z.testbit ?o ?i] =>
         by destruct (Z.testbit o i) end.
Qed.

Lemma splitWord_joinWord_witness :
  splitWord (joinWord (1, 2, 3, 4)) = [1; 2; 3; 4].
Proof. apply (splitWord_joinWord 1 2 3 4); lia. Defined.

(** X3: [getOctet] reads octet [n] of the big-endian split, for the four
    positions a word has. *)
Theorem getOctet_splitWord (w n : Z) :
  0 ≤ n ≤ 3 → getOctet w n = at_ (splitWord w) (Z.to_nat n).
Proof.
  intros Hn. unfold getOctet.
  assert (Hc : n = 0 ∨ n = 1 ∨ n = 2 ∨ n = 3) by lia.
  destruct Hc as [-> | [-> | [-> | ->]]]; reflexivity.
Qed.

Lemma getOctet_splitWord_witness :
  getOctet 0x01020304 2 = at_ (splitWord 0x01020304) (Z.to_nat 2).
Proof. apply (getOctet_splitWord 0x01020304 2). lia. Defined.

(** Bit [i] of a left rotation is bit [i - s] of the word, modulo 32. *)
Lemma rotl_bits w s i :
  0 ≤ w < 2 ^ 32 → 0 ≤ s < 32 → 0 ≤ i →
  Z.testbit (rotl w s) i
  = if i <? 32 then Z.testbit w ((i - s) mod 32) else false.
Proof.
  intros Hw Hs Hi. pose proof (λ i, word_high_bits w i Hw) as Hhi.
  unfold rotl, shl32, shr32, wrap32.
  rewrite usub_small by lia.
  destruct (Z.leb_spec 32 s) as [?|_]; [lia|].
  rewrite Z.lor_spec, Z.testbit_mod_pow2, Z.shiftl_spec, Z.shiftr_spec by lia.
  destruct (Z.ltb_spec i 32) as [Hlt|Hge]; cbn [andb].
  - destruct (Z.lt_ge_cases i s) as [Hlo|Hhi'].
    + rewrite (Z.testbit_neg_r w (i - s)) by lia. cbn [orb].
      f_equal. symmetry.
      replace (i - s) with (i + (32 - s) + -1 * 32) by lia.
      rewrite Z.mod_add by lia. apply Z.mod_small. lia.
    + rewrite (Hhi (i + (32 - s))) by lia. rewrite orb_false_r.
      f_equal. symmetry. apply Z.mod_small. lia.
  - cbn [orb]. apply Hhi. lia.
Qed.

(** Bit [i] of a right rotation is bit [i + s] of the word, modulo 32. *)
Lemma rotr_bits w s i :
  0 ≤ w < 2 ^ 32 → 0 ≤ s < 32 → 0 ≤ i →
  Z.testbit (rotr w s) i
  = if i <? 32 then Z.testbit w ((i + s) mod 32) else false.
Proof.
  intros Hw Hs Hi. pose proof (λ i, word_high_bits w i Hw) as Hhi.
  unfold rotr, shl32, shr32, wrap32.
  rewrite usub_small by lia.
  rewrite Z.lor_spec, Z.shiftr_spec by lia.
  destruct (Z.eq_dec s 0) as [->|Hs0].
  - change (32 <=? 32 - 0) with true. cbv iota.
    rewrite Z.bits_0, orb_false_r, Z.add_0_r.
    destruct (Z.ltb_spec i 32) as [Hlt|Hge].
    + by rewrite Z.mod_small by lia.
    + apply Hhi. lia.
  - destruct (Z.leb_spec 32 (32 - s)) as [?|_]; [lia|].
    rewrite Z.testbit_mod_pow2, Z.shiftl_spec by lia.
    destruct (Z.ltb_spec i 32) as [Hlt|Hge]; cbn [andb].
    + destruct (Z.lt_ge_cases (i + s) 32) as [Hlo|Hhi'].
      * rewrite (Z.testbit_neg_r w (i - (32 - s))) by lia.
        rewrite orb_false_r. by rewrite Z.mod_small by lia.
      * rewrite (Hhi (i + s)) by lia. cbn [orb]. f_equal.
        replace (i + s) with (i - (32 - s) + 1 * 32) by lia.
        rewrite Z.mod_add by lia. symmetry. apply Z.mod_small. lia.
    + rewrite orb_false_r. apply Hhi. lia.
Qed.

Lemma bits_lt_32 w :
  0 ≤ w → (∀ i, 32 ≤ i → Z.testbit w i = false) → 0 ≤ w < 2 ^ 32.
Proof.
  intros H0 Hhi. split; [done|].
  destruct (Z.lt_ge_cases w (2 ^ 32)) as [|Hge]; [done|].
  exfalso. assert (Hpos : 0 < w) by lia.
  pose proof (Z.bit_log2 w Hpos) as Hb.
  pose proof (Z.log2_le_mono (2 ^ 32) w Hge) as Hl.
  rewrite Z.log2_pow2 in Hl by lia.
  rewrite Hhi in Hb by lia. discriminate.
Qed.

Lemma rotl_range w s : 0 ≤ w < 2 ^ 32 → 0 ≤ s < 32 → 0 ≤ rotl w s < 2 ^ 32.
Proof.
  intros Hw Hs. apply bits_lt_32.
  - unfold rotl, shl32, shr32, wrap32. rewrite usub_small by lia.
    apply Z.lor_nonneg. split.
    + destruct (32 <=? s); [lia|]. apply Z.mod_pos_bound. lia.
    + apply Z.shiftr_nonneg. lia.
  - intros i Hi. rewrite rotl_bits by lia.
    by destruct (Z.ltb_spec i 32) as [?|_]; [lia|].
Qed.

Lemma rotr_range w s : 0 ≤ w < 2 ^ 32 → 0 ≤ s < 32 → 0 ≤ rotr w s < 2 ^ 32.
Proof.
  intros Hw Hs. apply bits_lt_32.
  - unfold rotr, shl32, shr32, wrap32. rewrite usub_small by lia.
    apply Z.lor_nonneg. split.
    + apply Z.shiftr_nonneg. lia.
    + destruct (32 <=? 32 - s); [lia|]. apply Z.mod_pos_bound. lia.
  - intros i Hi. rewrite rotr_bits by lia.
    by destruct (Z.ltb_spec i 32) as [?|_]; [lia|].
Qed.

(** X4: on 32-bit words and shift counts below 32, [rotr] undoes [rotl]
    and [rotl] undoes [rotr]; both stay within 32 bits, and a rotation by
    0 (where Go's shift by 32 yields 0) is the identity. *)
Theorem rotl_rotr_inverse (w s : Z) :
  0 ≤ w < 2 ^ 32 → 0 ≤ s < 32 →
  rotr (rotl w s) s = w ∧ rotl (rotr w s) s = w ∧
  0 ≤ rotl w s < 2 ^ 32 ∧ 0 ≤ rotr w s < 2 ^ 32 ∧
  rotl w 0 = w ∧ rotr w 0 = w.
Proof.
  intros Hw Hs.
  pose proof (rotl_range w s Hw Hs) as Rl.
  pose proof (rotr_range w s Hw Hs) as Rr.
  pose proof (λ i, word_high_bits w i Hw) as Hhi.
  assert (I1 : rotr (rotl w s) s = w).
  { apply Z.bits_inj'. intros i Hi. rewrite rotr_bits by done.
    destruct (Z.ltb_spec i 32) as [Hlt|Hge]; [|by rewrite Hhi by lia].
    rewrite rotl_bits by (done || apply Z.mod_pos_bound; lia).
    destruct (Z.ltb_spec ((i + s) mod 32) 32) as [_|Hge];
      [|pose proof (Z.mod_pos_bound (i + s) 32); lia].
    f_equal. rewrite Zminus_mod_idemp_l.
    replace (i + s - s) with i by lia. apply Z.mod_small. lia. }
  assert (I2 : rotl (rotr w s) s = w).
  { apply Z.bits_inj'. intros i Hi. rewrite rotl_bits by done.
    destruct (Z.ltb_spec i 32) as [Hlt|Hge]; [|by rewrite Hhi by lia].
    rewrite rotr_bits by (done || apply Z.mod_pos_bound; lia).
    destruct (Z.ltb_spec ((i - s) mod 32) 32) as [_|Hge];
      [|pose proof (Z.mod_pos_bound (i - s) 32); lia].
    f_equal. rewrite Zplus_mod_idemp_l.
    replace (i - s + s) with i by lia. apply Z.mod_small. lia. }
  repeat split; try done; try lia.
  - apply Z.bits_inj'. intros i Hi. rewrite rotl_bits by lia.
    destruct (Z.ltb_spec i 32) as [Hlt|Hge]; [|by rewrite Hhi by lia].
    by rewrite Z.sub_0_r, Z.mod_small by lia.
  - apply Z.bits_inj'. intros i Hi. rewrite rotr_bits by lia.
    destruct (Z.ltb_spec i 32) as [Hlt|Hge]; [|by rewrite Hhi by lia].
    by rewrite Z.add_0_r, Z.mod_small by lia.
Qed.

Lemma rotl_rotr_inverse_witness :
  rotr (rotl 0x80000001 8) 8 = 0x80000001 ∧
  rotl (rotr 0x80000001 8) 8 = 0x80000001 ∧
  0 ≤ rotl 0x80000001 8 < 2 ^ 32 ∧ 0 ≤ rotr 0x80000001 8 < 2 ^ 32 ∧
  rotl 0x80000001 0 = 0x80000001 ∧ rotr 0x80000001 0 = 0x80000001.
Proof. apply (rotl_rotr_inverse 0x80000001 8); lia. Defined.

(** ** The pseudo-Hadamard transform *)

Lemma add_to_all (sum : Z) (l : list Z) :
  for_range (length l) (λ i ws, <[i := add32 (at_ ws i) sum]> ws) l
  = (λ w, add32 w sum) <$> l.
Proof.
  enough (H : ∀ n, (n ≤ length l)%nat →
            for_range n (λ i ws, <[i := add32 (at_ ws i) sum]> ws) l
            = ((λ w, add32 w sum) <$> take n l) ++ drop n l).
  { rewrite H by lia. by rewrite firstn_all, drop_all, app_nil_r. }
  induction n as [|n IH]; intros Hn; [done|].
  rewrite for_range_S, IH by lia.
  destruct (lookup_lt_is_Some_2 l n) as [x Hx]; [lia|].
  assert (Hlen : length ((λ w, add32 w sum) <$> take n l) = n)
    by (rewrite length_fmap, length_take; lia).
  rewrite (drop_S l x n Hx). unfold at_.
  rewrite app_nth2 by lia. rewrite Hlen, Nat.sub_diag. cbn [nth].
  rewrite insert_app_r_alt by lia. rewrite Hlen, Nat.sub_diag.
  cbn [insert list_insert].
  rewrite (take_S_r l n x Hx), fmap_app, <- app_assoc. done.
Qed.

Lemma sum_words_range (l : list Z) : 0 ≤ foldl add32 0 l < 2 ^ 32.
Proof.
  induction l as [|x l IH] using rev_ind; [cbn; lia|].
  rewrite foldl_app. cbn [foldl]. apply Z.mod_pos_bound. lia.
Qed.

Lemma hadamard_snoc (init : list Z) (x : Z) :
  hadamard (init ++ [x])
  = Some (((λ w, wrap32 (w + foldl add32 0 (init ++ [x]))) <$> init)
          ++ [foldl add32 0 (init ++ [x])]).
Proof.
  unfold hadamard. set (s := foldl add32 0 (init ++ [x])).
  rewrite store_Some by (rewrite length_app; cbn; lia).
  cbn [mbind option_bind]. f_equal.
  rewrite add_to_all.
  replace (length (init ++ [x]) - 1)%nat with (length init + 0)%nat
    by (rewrite length_app; cbn; lia).
  rewrite insert_app_r. cbn [insert list_insert].
  rewrite fmap_app. f_equal. cbn [fmap list_fmap]. f_equal.
  unfold add32, wrap32. rewrite Z.add_0_l.
  apply Z.mod_small, sum_words_range.
Qed.

(** X5: [hadamard] panics on an empty slice; on [init ++ [x]] it
    replaces the last word by the sum of all words and adds that sum to
    every other word, all modulo 2^32. *)
Theorem hadamard_closed_form (init : list Z) (x : Z) :
  hadamard [] = None ∧
  hadamard (init ++ [x])
  = Some (((λ w, wrap32 (w + foldl add32 0 (init ++ [x]))) <$> init)
          ++ [foldl add32 0 (init ++ [x])]) ∧
  foldl add32 0 (init ++ [x]) = wrap32 (foldr Z.add 0 (init ++ [x])).
Proof.
  split; [reflexivity|]. split; [apply hadamard_snoc|].
  generalize (init ++ [x]). intros l.
  induction l as [|y l IH] using rev_ind; [reflexivity|].
  rewrite foldl_app, foldr_app. cbn [foldl foldr]. rewrite IH.
  rewrite add32_wrap_l. f_equal. rewrite Z.add_0_r.
  clear IH. induction l as [|z l IH]; cbn [foldr]; [lia|].
  rewrite <- IH. lia.
Qed.

Lemma wrap32_add_cancel a x y :
  0 ≤ x < 2 ^ 32 → 0 ≤ y < 2 ^ 32 →
  wrap32 (x + a) = wrap32 (y + a) → x = y.
Proof.
  unfold wrap32. intros Hx Hy H.
  change (2 ^ 32) with 4294967296 in *.
  Z.div_mod_to_equations. lia.
Qed.

Lemma add_to_all_inj (s : Z) (l l' : list Z) :
  Forall (λ w, 0 ≤ w < 2 ^ 32) l → Forall (λ w, 0 ≤ w < 2 ^ 32) l' →
  (λ w, wrap32 (w + s)) <$> l = (λ w, wrap32 (w + s)) <$> l' → l = l'.
Proof.
  intros Hl. revert l'.
  induction Hl as [|a l Ha _ IH]; intros [|a' l'] Hl' H;
    try discriminate H; [done|].
  rewrite !fmap_cons in H. injection H as H1 H2.
  apply Forall_cons in Hl' as [Ha' Hl'].
  f_equal; [by eapply wrap32_add_cancel|by apply IH].
Qed.

(** X6: on lists of 32-bit words [hadamard] is injective: the input can
    be recovered from the output. *)
Theorem hadamard_injective (ws ws' out : list Z) :
  Forall (λ w, 0 ≤ w < 2 ^ 32) ws → Forall (λ w, 0 ≤ w < 2 ^ 32) ws' →
  hadamard ws = Some out → hadamard ws' = Some out → ws = ws'.
Proof.
  intros Hws Hws' H H'.
  destruct ws as [|w0 ws0] using rev_ind; [discriminate H|]. clear IHws0.
  destruct ws' as [|w0' ws0'] using rev_ind; [discriminate H'|]. clear IHws0'.
  pose proof (hadamard_snoc ws0 w0) as E.
  pose proof (hadamard_snoc ws0' w0') as E'.
  rewrite E in H. rewrite E' in H'. rewrite <- H' in H.
  injection H as H. apply app_inj_tail in H as [Hinit Hsum].
  rewrite <- Hsum in Hinit.
  apply Forall_app in Hws as [Hws Hw0]. apply Forall_app in Hws' as [Hws' Hw0'].
  assert (Heq : ws0 = ws0') by (by eapply add_to_all_inj).
  subst ws0'. f_equal. f_equal.
  rewrite !foldl_app in Hsum. cbn [foldl] in Hsum.
  set (s0 := foldl add32 0 ws0) in Hsum. unfold add32 in Hsum.
  rewrite Forall_singleton in Hw0. rewrite Forall_singleton in Hw0'.
  apply (wrap32_add_cancel s0); [done|done|].
  by rewrite !(Z.add_comm _ s0).
Qed.

Lemma hadamard_injective_witness : [1; 2; 3] = [1; 2; 3].
Proof.
  apply (hadamard_injective [1; 2; 3] [1; 2; 3] [7; 8; 6]);
    [by repeat constructor|by repeat constructor|reflexivity|reflexivity].
Defined.

(** ** Panics that validation keeps away *)

(** X7: [initKey] panics exactly on keys shorter than 4 bytes (the key
    material is then empty and [hadamard] indexes past it). *)
Theorem initKey_panics_iff (sbox qbox : Z → Z) (c : Cipher) (k : list Z) :
  initKey sbox qbox c k = None ↔ (length k < 4)%nat.
Proof.
  split.
  - intros H. destruct (Nat.lt_ge_cases (length k) 4) as [|Hge]; [done|].
    destruct (initKey_Some sbox qbox c k) as (c' & E & _).
    + pose proof (Nat.div_mod_eq (length k) 4).
      pose proof (Nat.mod_upper_bound (length k) 4). lia.
    + congruence.
  - intros H. unfold initKey. rewrite (Nat.div_small (length k) 4 H).
    reflexivity.
Qed.

(** A run of stores that reaches the end of the array panics. *)
Lemma stores_None (f : nat → Z) base n (rg : list Z) :
  (length rg < base + S n)%nat →
  for_rangeM (S n) (λ i rg, store rg (base + i) (f i)) rg = None.
Proof.
  induction n as [|n IH]; intros Hlen.
  - unfold for_rangeM. cbn. unfold store. rewrite decide_False by lia. done.
  - rewrite for_rangeM_S.
    destruct (Nat.lt_ge_cases (length rg) (base + S n)) as [Hlt|Hge].
    + by rewrite IH.
    + destruct (stores_Some f base (S n) rg Hge) as (rg' & -> & Hrg').
      cbn [mbind option_bind]. unfold store. rewrite decide_False by lia. done.
Qed.

(** X8: [initIV] stays within the 17-word register exactly when the IV
    words, the key words and the marker word fit: otherwise a store
    panics. *)
Theorem initIV_overrun_iff (sbox qbox : Z → Z) (c : Cipher) (iv : list Z) :
  length (reg c) = reglen →
  (is_Some (initIV sbox qbox c iv)
   ↔ (length iv / 4 + length (key c) + 1 ≤ reglen)%nat).
Proof.
  intros Hreg. split.
  - intros [c' H].
    destruct (Nat.le_gt_cases (length iv / 4 + length (key c) + 1) reglen)
      as [|Hgt]; [done|].
    exfalso. unfold initIV in H.
    destruct (Nat.le_gt_cases (length iv / 4) (length (reg c))) as [H1|H1].
    + destruct (stores_Some (λ i, fixedS sbox qbox (joinWord (quad iv i))) 0
                  (length iv / 4) (reg c)) as (r1 & E1 & L1); [lia|].
      rewrite E1 in H. cbn [mbind option_bind] in H.
      destruct (Nat.le_gt_cases (length iv / 4 + length (key c)) (length r1))
        as [H2|H2].
      * destruct (stores_Some (λ i, at_ (key c) i) (0 + length iv / 4)
                    (length (key c)) r1) as (r2 & E2 & L2); [lia|].
        rewrite E2 in H. cbn [mbind option_bind] in H.
        unfold store in H. rewrite decide_False in H by lia.
        discriminate H.
      * destruct (length (key c)) as [|n] eqn:Hk; [lia|].
        rewrite stores_None in H by lia. discriminate H.
    + destruct (length iv / 4)%nat as [|n] eqn:Hiv; [lia|].
      rewrite stores_None in H by lia. discriminate H.
  - intros Hn. destruct (initIV_Some sbox qbox c iv Hreg Hn) as (c' & E & _).
    by exists c'.
Qed.

Lemma initIV_overrun_iff_witness :
  is_Some (initIV Sample.sbox Sample.qbox zeroCipher Sample.iv4)
  ↔ (length Sample.iv4 / 4 + length (key zeroCipher) + 1 ≤ reglen)%nat.
Proof.
  apply (initIV_overrun_iff Sample.sbox Sample.qbox zeroCipher Sample.iv4).
  reflexivity.
Defined.

(** ** The contract of [XORKeyStream] *)

Lemma xor_loop_short mtab src : ∀ i c dst,
  cursor_ok c → (i ≤ length dst)%nat → (length dst < i + length src)%nat →
  xor_loop mtab i src c dst = None.
Proof.
  induction src as [|s src IH]; intros i c dst Hc Hi Hlen;
    cbn [length] in Hlen; [lia|].
  cbn [xor_loop].
  pose proof (refill_cursor mtab c Hc) as Hr. cbn zeta in Hr.
  set (c1 := if bufpos c =? Z.of_nat (length (buffer c)) then nextRound mtab c
             else c) in *.
  destruct Hr as [Hb Hp]. rewrite decide_True by lia.
  rewrite (lookup_at (buffer c1) (Z.to_nat (bufpos c1))) by lia.
  cbn [mbind option_bind]. unfold store.
  case_decide as Hd; [|done]. cbn [mbind option_bind].
  apply IH; [by apply cursor_ok_advance|rewrite length_insert; lia
            |rewrite length_insert; lia].
Qed.

Lemma XORKeyStream_Some_fits mtab c dst src r :
  cursor_ok c → XORKeyStream mtab c dst src = Some r →
  (length src ≤ length dst)%nat.
Proof.
  intros Hc H.
  destruct (Nat.le_gt_cases (length src) (length dst)) as [|Hgt]; [done|].
  unfold XORKeyStream in H. rewrite xor_loop_short in H by (done || lia).
  discriminate H.
Qed.

(** X9: on a cipher that satisfies the invariants, [XORKeyStream]
    returns exactly when [dst] is at least as long as [src]; with a
    shorter [dst] it panics on the first index past it. *)
Theorem XORKeyStream_dst_contract (mtab : Z → Z) (c : Cipher)
    (dst src : list Z) :
  invariant c →
  (is_Some (XORKeyStream mtab c dst src) ↔ (length src ≤ length dst)%nat).
Proof.
  intros Hinv. pose proof (invariant_cursor_ok c Hinv) as Hc. split.
  - intros [r H]. by eapply XORKeyStream_Some_fits.
  - intros Hlen. rewrite XORKeyStream_Some by done. by eexists.
Qed.

Lemma XORKeyStream_dst_contract_witness :
  is_Some (XORKeyStream Sample.mtab Sample.cipher84 [0; 0] [1; 2; 3])
  ↔ (length [1; 2; 3] ≤ length [0; 0])%nat.
Proof.
  apply (XORKeyStream_dst_contract Sample.mtab Sample.cipher84 [0; 0] [1; 2; 3]).
  compute_done.
Defined.

(** X10: a call overwrites the first [len(src)] bytes of [dst] and
    nothing else: the result has the length of [dst] and agrees with it
    past the source's length. *)
Theorem XORKeyStream_frame (mtab : Z → Z) (c c' : Cipher)
    (dst src out : list Z) :
  invariant c → XORKeyStream mtab c dst src = Some (c', out) →
  length out = length dst ∧
  drop (length src) out = drop (length src) dst ∧
  key c' = key c ∧ keybox c' = keybox c.
Proof.
  intros Hinv H. pose proof (invariant_cursor_ok c Hinv) as Hc.
  assert (Hlen : (length src ≤ length dst)%nat)
    by (by eapply XORKeyStream_Some_fits).
  rewrite XORKeyStream_Some in H by done. injection H as <- <-.
  assert (Hz : length (zip_with Z.lxor src
                         (snd (keystream mtab (length src) c))) = length src).
  { rewrite length_zip_with_l_eq; [done|]. by rewrite keystream_length. }
  destruct (keystream_fields mtab (length src) c) as (K & KB & _).
  split; [rewrite length_app, Hz, length_drop; lia|].
  split; [|done].
  rewrite drop_app_length'; done.
Qed.

Lemma XORKeyStream_frame_witness :
  ∃ c' out,
    XORKeyStream Sample.mtab Sample.cipher84 [7; 7; 7; 7] [1; 2] = Some (c', out) ∧
    length out = length [7; 7; 7; 7] ∧
    drop (length [1; 2]) out = drop (length [1; 2]) [7; 7; 7; 7] ∧
    key c' = key Sample.cipher84 ∧ keybox c' = keybox Sample.cipher84.
Proof.
  destruct (XORKeyStream Sample.mtab Sample.cipher84 [7; 7; 7; 7] [1; 2])
    as [[c' out]|] eqn:E; [|by vm_compute in E].
  exists c', out. split; [reflexivity|].
  apply (XORKeyStream_frame Sample.mtab Sample.cipher84 c' [7; 7; 7; 7] [1; 2] out);
    [compute_done|exact E].
Defined.

(** X11: the cipher that a call leaves depends on the number of source
    bytes only, not on their values nor on [dst]. *)
Theorem XORKeyStream_state_by_length (mtab : Z → Z) (c c1 c2 : Cipher)
    (dst1 src1 out1 dst2 src2 out2 : list Z) :
  invariant c → length src1 = length src2 →
  XORKeyStream mtab c dst1 src1 = Some (c1, out1) →
  XORKeyStream mtab c dst2 src2 = Some (c2, out2) →
  c1 = c2.
Proof.
  intros Hinv Hlen H1 H2. pose proof (invariant_cursor_ok c Hinv) as Hc.
  assert (L1 : (length src1 ≤ length dst1)%nat)
    by (by eapply XORKeyStream_Some_fits).
  assert (L2 : (length src2 ≤ length dst2)%nat)
    by (by eapply XORKeyStream_Some_fits).
  rewrite XORKeyStream_Some in H1 by done.
  rewrite XORKeyStream_Some in H2 by done.
  injection H1 as <- _. injection H2 as <- _. by rewrite Hlen.
Qed.

Lemma XORKeyStream_state_by_length_witness :
  ∃ c1 c2 out1 out2,
    XORKeyStream Sample.mtab Sample.cipher84 [0; 0] [1; 2] = Some (c1, out1) ∧
    XORKeyStream Sample.mtab Sample.cipher84 [9; 9; 9] [5; 6]
      = Some (c2, out2) ∧
    c1 = c2.
Proof.
  destruct (XORKeyStream Sample.mtab Sample.cipher84 [0; 0] [1; 2])
    as [[c1 out1]|] eqn:E1; [|by vm_compute in E1].
  destruct (XORKeyStream Sample.mtab Sample.cipher84 [9; 9; 9] [5; 6])
    as [[c2 out2]|] eqn:E2; [|by vm_compute in E2].
  exists c1, c2, out1, out2. split; [reflexivity|]. split; [reflexivity|].
  apply (XORKeyStream_state_by_length Sample.mtab Sample.cipher84 c1 c2
           [0; 0] [1; 2] out1 [9; 9; 9] [5; 6] out2);
    [compute_done|reflexivity|exact E1|exact E2].
Defined.

(** ** After [Reset] *)

(** X12: [Reset] is idempotent, and it keeps the number of key words (the
    key slice is zeroed in place, not released). *)
Theorem Reset_idempotent (c : Cipher) :
  Reset (Reset c) = Reset c ∧ length (key (Reset c)) = length (key c).
Proof.
  rewrite !Reset_fields. cbn [key keybox reg buffer bufpos].
  rewrite !length_replicate. split; [|done]. f_equal.
  rewrite <- list_fmap_compose. apply list_fmap_ext.
  intros _ row _. cbn. by rewrite length_replicate.
Qed.

Lemma xor_zeros (src : list Z) n :
  (length src ≤ n)%nat → zip_with Z.lxor src (replicate n 0) = src.
Proof.
  intros Hn. rewrite zip_with_replicate_r by done.
  rewrite <- (list_fmap_id src) at 2. apply list_fmap_ext.
  intros _ x _. cbn. apply Z.lxor_0_r.
Qed.

(** X13: a cipher that has been reset passes the next 20 bytes through
    unchanged: the buffer is all zero and the cursor is at its start. *)
Theorem Reset_passes_through (mtab : Z → Z) (c : Cipher) (dst src : list Z) :
  shape c → (length src ≤ 20)%nat → (length src ≤ length dst)%nat →
  XORKeyStream mtab (Reset c) dst src
  = Some (set_bufpos (Reset c) (Z.of_nat (length src)),
          src ++ drop (length src) dst).
Proof.
  intros Hs H20 Hlen. rewrite (Reset_zero_state c Hs).
  set (z := mkCipher _ _ _ _ 0).
  assert (Hc : cursor_ok z) by (split; [reflexivity|cbn; lia]).
  rewrite XORKeyStream_Some by done.
  rewrite keystream_within_buffer by (done || cbn [bufpos z]; lia).
  cbn [fst snd bufpos buffer z]. rewrite Z.add_0_l.
  change (drop (Z.to_nat 0) (replicate 20 0)) with (replicate 20 0).
  rewrite zip_with_take_r, xor_zeros by done. done.
Qed.

Lemma Reset_passes_through_witness :
  XORKeyStream Sample.mtab (Reset Sample.cipher84) [0; 0; 0] [104; 105]
  = Some (set_bufpos (Reset Sample.cipher84) (Z.of_nat (length [104; 105])),
          [104; 105] ++ drop (length [104; 105]) [0; 0; 0]).
Proof.
  apply (Reset_passes_through Sample.mtab Sample.cipher84 [0; 0; 0] [104; 105]);
    [compute_done|cbn [length]; lia|cbn [length]; lia].
Defined.

(** With all-zero keyed tables the substitution yields 0. *)
Lemma keyedS_zero_tables c w r :
  keybox c = replicate 4 (replicate 256 0) → keyedS c w r = 0.
Proof.
  intros Hkb. unfold keyedS. rewrite Hkb.
  assert (Hz : ∀ i o, at_ (nth i (replicate 4 (replicate 256 0)) []) o = 0).
  { intros i o. unfold at_.
    destruct (Nat.lt_ge_cases i 4) as [Hi|Hi].
    - rewrite (nth_lookup_Some _ i [] (replicate 256 0))
        by (apply lookup_replicate_2; lia).
      destruct (Nat.lt_ge_cases o 256) as [Ho|Ho].
      + apply nth_lookup_Some. apply lookup_replicate_2. lia.
      + apply nth_overflow. rewrite length_replicate. lia.
    - rewrite (nth_overflow _ []) by (rewrite length_replicate; lia).
      by destruct o. }
  generalize (imap pair (splitWord (rotl w r))). intros l.
  induction l as [|io l IH] using rev_ind; [done|].
  rewrite foldl_app. cbn [foldl]. by rewrite IH, Hz.
Qed.

Lemma clockRegister_zero mtab c :
  mtab 0 = 0 → reg c = replicate reglen 0 → clockRegister mtab c = c.
Proof.
  intros Hm Hr. destruct c as [k kb r b p]. cbn [reg] in Hr. subst r.
  unfold clockRegister. cbn [reg]. unfold set_reg. cbn [key keybox buffer bufpos].
  f_equal.
  change (at_ (replicate reglen 0) 15) with 0.
  change (at_ (replicate reglen 0) 4) with 0.
  change (at_ (replicate reglen 0) 0) with 0.
  change (shr32 0 24) with 0. rewrite Hm. reflexivity.
Qed.

Lemma nextRound_zero mtab c :
  mtab 0 = 0 → reg c = replicate reglen 0 →
  keybox c = replicate 4 (replicate 256 0) → length (buffer c) = 20%nat →
  nextRound mtab c
  = mkCipher (key c) (keybox c) (reg c) (replicate 20 0) 0.
Proof.
  intros Hm Hr Hkb Hb. rewrite nextRound_as_described by done.
  unfold round_described.
  assert (Hit : ∀ n, Nat.iter n (clockRegister mtab) c = c).
  { induction n as [|n IH]; [done|].
    change (Nat.iter (S n) (clockRegister mtab) c)
      with (clockRegister mtab (Nat.iter n (clockRegister mtab) c)).
    rewrite IH. by apply clockRegister_zero. }
  rewrite !Hit, !(keyedS_zero_tables c) by done. rewrite Hr.
  reflexivity.
Qed.

Lemma keystream_zero mtab n : ∀ c,
  mtab 0 = 0 → reg c = replicate reglen 0 →
  keybox c = replicate 4 (replicate 256 0) →
  buffer c = replicate 20 0 → 0 ≤ bufpos c ≤ 20 →
  snd (keystream mtab n c) = replicate n 0.
Proof.
  induction n as [|n IH]; intros c Hm Hr Hkb Hb Hp; [done|].
  rewrite keystream_S. cbn zeta. cbn [snd].
  assert (Hlen : length (buffer c) = 20%nat) by (by rewrite Hb).
  rewrite Hlen.
  destruct (Z.eqb_spec (bufpos c) (Z.of_nat 20)) as [E|E].
  - rewrite nextRound_zero by done. cbn [buffer bufpos set_bufpos Z.to_nat].
    rewrite IH by (done || cbn; lia). reflexivity.
  - rewrite IH by (done || cbn [set_bufpos bufpos]; lia).
    cbn [replicate]. f_equal. rewrite Hb. unfold at_.
    apply nth_lookup_Some, lookup_replicate_2. lia.
Qed.

(** X14: when entry 0 of the feedback table is 0, a cipher that has
    been reset stays all-zero for ever: every later call returns its
    source unchanged, whatever the length. *)
Theorem Reset_is_identity (mtab : Z → Z) (c : Cipher) (dst src : list Z) :
  mtab 0 = 0 → shape c → (length src ≤ length dst)%nat →
  ∃ c', XORKeyStream mtab (Reset c) dst src
        = Some (c', src ++ drop (length src) dst).
Proof.
  intros Hm Hs Hlen. rewrite (Reset_zero_state c Hs).
  set (z := mkCipher _ _ _ _ 0).
  assert (Hc : cursor_ok z) by (split; [reflexivity|cbn; lia]).
  rewrite XORKeyStream_Some by done.
  rewrite keystream_zero by (done || cbn; lia).
  rewrite xor_zeros by done. by eexists.
Qed.

Lemma Reset_is_identity_witness :
  ∃ c', XORKeyStream Sample.mtab (Reset Sample.cipher84)
          (replicate 50 0) (replicate 45 7)
        = Some (c', replicate 45 7 ++ drop (length (replicate 45 7))
                                        (replicate 50 0)).
Proof.
  apply (Reset_is_identity Sample.mtab Sample.cipher84
           (replicate 50 0) (replicate 45 7));
    [reflexivity|compute_done|cbn; lia].
Defined.

(** ** Key schedule *)

(** X15: the key material and the four keyed tables of a constructed
    cipher depend on the key only: another valid IV gives the same ones. *)
Theorem key_schedule_ignores_iv (sbox qbox mtab : Z → Z)
    (k iv iv' : list Z) (c c' : Cipher) :
  NewCipher sbox qbox mtab k iv = Ready c →
  NewCipher sbox qbox mtab k iv' = Ready c' →
  key c = key c' ∧ keybox c = keybox c'.
Proof.
  intros H H'. rewrite NewCipher_cases in H, H'.
  destruct (first_violation _ (Z.of_nat (length iv))); [discriminate H|].
  destruct (first_violation _ (Z.of_nat (length iv'))); [discriminate H'|].
  destruct (initKey sbox qbox zeroCipher k) as [c1|] eqn:E1;
    [|discriminate H].
  cbn [mbind option_bind] in H, H'.
  destruct (initIV sbox qbox c1 iv) as [c2|] eqn:E2; [|discriminate H].
  destruct (initIV sbox qbox c1 iv') as [c2'|] eqn:E2'; [|discriminate H'].
  injection H as <-. injection H' as <-.
  destruct (nextRound_fields mtab c2) as (-> & -> & _).
  destruct (nextRound_fields mtab c2') as (-> & -> & _).
  unfold initIV in E2, E2'.
  repeat match goal with
         | H : (?m ≫= _) = Some _ |- _ =>
           destruct m; cbn [mbind option_bind] in H; [|discriminate H]
         | H : Some _ = Some _ |- _ => injection H as <-
         end.
  done.
Qed.

Lemma key_schedule_ignores_iv_witness :
  key Sample.cipher84 = key Sample.cipher8 ∧
  keybox Sample.cipher84 = keybox Sample.cipher8.
Proof.
  apply (key_schedule_ignores_iv Sample.sbox Sample.qbox Sample.mtab
           Sample.key8 Sample.iv4 []);
    vm_compute; reflexivity.
Defined.

Lemma clockRegister_reg mtab c1 c2 :
  reg c1 = reg c2 → reg (clockRegister mtab c1) = reg (clockRegister mtab c2).
Proof. intros H. unfold clockRegister. cbn [reg set_reg]. by rewrite H. Qed.

Lemma clockRegister_iter_reg mtab n c1 c2 :
  reg c1 = reg c2 →
  reg (Nat.iter n (clockRegister mtab) c1)
  = reg (Nat.iter n (clockRegister mtab) c2).
Proof.
  intros H. induction n as [|n IH]; [done|].
  change (Nat.iter (S n) (clockRegister mtab) ?x)
    with (clockRegister mtab (Nat.iter n (clockRegister mtab) x)).
  by apply clockRegister_reg.
Qed.

(** X18: a round reads the register and the keyed tables only: two
    ciphers that agree on these get the same register and the same 20
    keystream bytes from [nextRound], whatever their key material, old
    buffer and cursor. *)
Theorem nextRound_reads_register_and_tables (mtab : Z → Z) (c1 c2 : Cipher) :
  length (buffer c1) = 20%nat → length (buffer c2) = 20%nat →
  reg c1 = reg c2 → keybox c1 = keybox c2 →
  reg (nextRound mtab c1) = reg (nextRound mtab c2) ∧
  buffer (nextRound mtab c1) = buffer (nextRound mtab c2) ∧
  bufpos (nextRound mtab c1) = bufpos (nextRound mtab c2).
Proof.
  intros B1 B2 Hr Hkb. rewrite !nextRound_as_described by done.
  unfold round_described. cbn [reg buffer bufpos].
  rewrite !(clockRegister_iter_reg mtab _ c1 c2 Hr).
  rewrite !(keyedS_keybox c1 c2) by done. done.
Qed.

Lemma nextRound_reads_register_and_tables_witness :
  reg (nextRound Sample.mtab Sample.cipher84)
    = reg (nextRound Sample.mtab (set_bufpos Sample.cipher84 7)) ∧
  buffer (nextRound Sample.mtab Sample.cipher84)
    = buffer (nextRound Sample.mtab (set_bufpos Sample.cipher84 7)) ∧
  bufpos (nextRound Sample.mtab Sample.cipher84)
    = bufpos (nextRound Sample.mtab (set_bufpos Sample.cipher84 7)).
Proof.
  apply (nextRound_reads_register_and_tables Sample.mtab Sample.cipher84
           (set_bufpos Sample.cipher84 7));
    vm_compute; reflexivity.
Defined.

(** ** Bytes in, bytes out *)

Lemma bits_below k w :
  0 ≤ k → 0 ≤ w → (∀ i, k ≤ i → Z.testbit w i = false) → w < 2 ^ k.
Proof.
  intros Hk H0 Hhi.
  destruct (Z.lt_ge_cases w (2 ^ k)) as [|Hge]; [done|].
  exfalso. assert (Hpos : 0 < w) by (pose proof (Z.pow_pos_nonneg 2 k); lia).
  pose proof (Z.bit_log2 w Hpos) as Hb.
  pose proof (Z.log2_le_mono (2 ^ k) w Hge) as Hl.
  rewrite Z.log2_pow2 in Hl by lia.
  rewrite Hhi in Hb by lia. discriminate.
Qed.

Lemma lxor_byte a b : 0 ≤ a < 256 → 0 ≤ b < 256 → 0 ≤ Z.lxor a b < 256.
Proof.
  intros Ha Hb. split; [apply Z.lxor_nonneg; lia|].
  apply (bits_below 8); [lia|apply Z.lxor_nonneg; lia|].
  intros i Hi.
  by rewrite Z.lxor_spec, (byte_high_bits a), (byte_high_bits b) by lia.
Qed.

Lemma be32_bytes w : Forall (λ b, 0 ≤ b < 256) (be32 w).
Proof. unfold be32. repeat constructor; apply Z.mod_pos_bound; lia. Qed.

Lemma nextRound_buffer_bytes mtab c :
  length (buffer c) = 20%nat →
  Forall (λ b, 0 ≤ b < 256) (buffer (nextRound mtab c)).
Proof.
  intros Hb. rewrite nextRound_as_described by done. unfold round_described.
  cbn [buffer]. rewrite !Forall_app. repeat split; apply be32_bytes.
Qed.

Lemma keystream_bytes mtab n : ∀ c,
  cursor_ok c → Forall (λ b, 0 ≤ b < 256) (buffer c) →
  Forall (λ b, 0 ≤ b < 256) (buffer (fst (keystream mtab n c))) ∧
  Forall (λ b, 0 ≤ b < 256) (snd (keystream mtab n c)).
Proof.
  induction n as [|n IH]; intros c Hc Hbytes; [by split|].
  rewrite keystream_S. cbn zeta. cbn [fst snd].
  pose proof (refill_cursor mtab c Hc) as Hr. cbn zeta in Hr.
  assert (Hbytes1 : Forall (λ b, 0 ≤ b < 256)
            (buffer (if bufpos c =? Z.of_nat (length (buffer c))
                     then nextRound mtab c else c))).
  { destruct (bufpos c =? _); [|done].
    apply nextRound_buffer_bytes, Hc. }
  set (c1 := if bufpos c =? Z.of_nat (length (buffer c)) then nextRound mtab c
             else c) in *.
  destruct Hr as [Hb Hp].
  destruct (IH (set_bufpos c1 (bufpos c1 + 1))) as [I1 I2];
    [by apply cursor_ok_advance|done|].
  split; [done|]. constructor; [|done].
  rewrite Forall_lookup in Hbytes1.
  apply (Hbytes1 (Z.to_nat (bufpos c1))). apply lookup_at. lia.
Qed.

Lemma reachable_buffer_bytes mtab c c' :
  invariant c → Forall (λ b, 0 ≤ b < 256) (buffer c) →
  rtc (op_step mtab) c c' →
  invariant c' ∧ Forall (λ b, 0 ≤ b < 256) (buffer c').
Proof.
  intros Hinv Hbytes Hsteps.
  induction Hsteps as [|c c1 c' Hstep _ IH]; [done|].
  assert (Hinv1 : invariant c1)
    by (eapply reachable_invariant; [exact Hinv|by apply rtc_once]).
  apply IH; [done|].
  destruct Hstep as [c dst src c1 out H|c].
  - pose proof (invariant_cursor_ok c Hinv) as Hc.
    rewrite XORKeyStream_Some in H
      by (done || by eapply XORKeyStream_Some_fits).
    injection H as <- _. by apply keystream_bytes.
  - rewrite Reset_fields. cbn [buffer]. apply Forall_replicate. lia.
Qed.

(** X16: on a constructed cipher, whatever calls came before, the
    keystream buffer holds bytes, and a call on a source of bytes writes
    bytes. *)
Theorem stream_of_bytes (sbox qbox mtab : Z → Z) (k iv : list Z)
    (c c' c'' : Cipher) (dst src out : list Z) :
  NewCipher sbox qbox mtab k iv = Ready c →
  rtc (op_step mtab) c c' →
  Forall (λ b, 0 ≤ b < 256) src →
  XORKeyStream mtab c' dst src = Some (c'', out) →
  Forall (λ b, 0 ≤ b < 256) (buffer c') ∧
  Forall (λ b, 0 ≤ b < 256) (take (length src) out).
Proof.
  intros E Hsteps Hsrc H.
  destruct (NewCipher_Ready sbox qbox mtab k iv c E) as (Hv & Hinv & _).
  destruct (NewCipher_valid sbox qbox mtab k iv Hv)
    as (c0 & _ & E' & (_ & _ & _ & Hb0) & _).
  rewrite E in E'. injection E' as ->.
  destruct (reachable_buffer_bytes mtab _ c' Hinv
              (nextRound_buffer_bytes mtab c0 Hb0) Hsteps) as [Hinv' Hbytes].
  split; [done|].
  pose proof (invariant_cursor_ok c' Hinv') as Hc.
  rewrite XORKeyStream_Some in H by (done || by eapply XORKeyStream_Some_fits).
  injection H as _ <-.
  destruct (keystream_bytes mtab (length src) c' Hc Hbytes) as [_ Hks].
  pose proof (keystream_length mtab (length src) c') as Hlen.
  rewrite take_app_length'
    by (rewrite length_zip_with_l_eq; [done|by rewrite Hlen]).
  revert Hks Hlen. generalize (snd (keystream mtab (length src) c')).
  induction Hsrc as [|s src Hs _ IH]; intros [|kb ks] Hks Hlen;
    try discriminate Hlen; [constructor|].
  apply Forall_cons in Hks as [Hkb Hks]. cbn [zip_with].
  constructor; [by apply lxor_byte|].
  apply IH; [done|]. cbn [length] in Hlen. lia.
Qed.

Lemma stream_of_bytes_witness :
  ∃ c'' out,
    XORKeyStream Sample.mtab (Reset Sample.cipher84) [0; 0; 0] [104; 105; 33]
      = Some (c'', out) ∧
    Forall (λ b, 0 ≤ b < 256) (buffer (Reset Sample.cipher84)) ∧
    Forall (λ b, 0 ≤ b < 256) (take (length [104; 105; 33]) out).
Proof.
  destruct (XORKeyStream Sample.mtab (Reset Sample.cipher84)
              [0; 0; 0] [104; 105; 33]) as [[c'' out]|] eqn:E;
    [|by vm_compute in E].
  exists c'', out. split; [reflexivity|].
  apply (stream_of_bytes Sample.sbox Sample.qbox Sample.mtab
           Sample.key8 Sample.iv4 Sample.cipher84 (Reset Sample.cipher84) c''
           [0; 0; 0] [104; 105; 33] out).
  - vm_compute. reflexivity.
  - apply rtc_once, op_reset.
  - repeat constructor; lia.
  - exact E.
Defined.

(** ** Rounds and the cursor *)

Lemma clockRegister_iter_set_bufpos mtab p n c :
  Nat.iter n (clockRegister mtab) (set_bufpos c p)
  = set_bufpos (Nat.iter n (clockRegister mtab) c) p.
Proof.
  induction n as [|n IH]; [done|].
  change (Nat.iter (S n) (clockRegister mtab) (set_bufpos c p))
    with (clockRegister mtab (Nat.iter n (clockRegister mtab) (set_bufpos c p))).
  rewrite IH. reflexivity.
Qed.

(** A round does not read the cursor. *)
Lemma nextRound_set_bufpos mtab c p :
  length (buffer c) = 20%nat →
  nextRound mtab (set_bufpos c p) = nextRound mtab c.
Proof.
  intros Hb. rewrite !nextRound_as_described by done. unfold round_described.
  rewrite !clockRegister_iter_set_bufpos.
  rewrite !(keyedS_keybox (set_bufpos c p) c) by done.
  reflexivity.
Qed.

Lemma nextRound_iter_fields mtab n c :
  length (buffer (Nat.iter n (nextRound mtab) c)) = length (buffer c).
Proof.
  induction n as [|n IH]; [done|].
  change (Nat.iter (S n) (nextRound mtab) c)
    with (nextRound mtab (Nat.iter n (nextRound mtab) c)).
  destruct (nextRound_fields mtab (Nat.iter n (nextRound mtab) c))
    as (_ & _ & _ & _ & B).
  by rewrite B.
Qed.

Lemma keystream_one mtab c :
  cursor_ok c →
  fst (keystream mtab 1 c)
  = set_bufpos (Nat.iter (Z.to_nat (bufpos c / 20)) (nextRound mtab) c)
               (bufpos c mod 20 + 1).
Proof.
  intros [Hb Hp]. rewrite keystream_S. cbn zeta. cbn [fst keystream].
  rewrite Hb. destruct (Z.eqb_spec (bufpos c) (Z.of_nat 20)) as [E|E].
  - rewrite E. change (Z.to_nat (Z.of_nat 20 / 20)) with 1%nat.
    change (Z.of_nat 20 mod 20 + 1) with 1.
    destruct (nextRound_fields mtab c) as (_ & _ & P & _). by rewrite P.
  - rewrite Z.div_small, Z.mod_small by lia. reflexivity.
Qed.

Lemma keystream_state mtab n : ∀ c,
  cursor_ok c →
  fst (keystream mtab (S n) c)
  = set_bufpos
      (Nat.iter (Z.to_nat ((bufpos c + Z.of_nat n) / 20)) (nextRound mtab) c)
      ((bufpos c + Z.of_nat n) mod 20 + 1).
Proof.
  induction n as [|n IH]; intros c Hc.
  - rewrite Z.add_0_r. by apply keystream_one.
  - replace (S (S n)) with (S n + 1)%nat by lia.
    rewrite keystream_add. cbn [fst]. rewrite IH by done.
    destruct Hc as [Hb Hp].
    set (k := Z.to_nat ((bufpos c + Z.of_nat n) / 20)).
    set (q := (bufpos c + Z.of_nat n) mod 20 + 1).
    assert (Hq : 1 ≤ q ≤ 20)
      by (unfold q; pose proof (Z.mod_pos_bound (bufpos c + Z.of_nat n) 20); lia).
    assert (Hbk : length (buffer (Nat.iter k (nextRound mtab) c)) = 20%nat)
      by (by rewrite nextRound_iter_fields).
    rewrite keystream_one by (split; [exact Hbk|cbn [set_bufpos bufpos]; lia]).
    cbn [set_bufpos bufpos].
    destruct (Z.eq_dec q 20) as [Hq20|Hq20].
    + rewrite Hq20. change (Z.to_nat (20 / 20)) with 1%nat.
      change (20 mod 20 + 1) with 1.
      change (Nat.iter 1 (nextRound mtab) ?x) with (nextRound mtab x).
      fold (set_bufpos (Nat.iter k (nextRound mtab) c) 20).
      rewrite nextRound_set_bufpos by done.
      change (nextRound mtab (Nat.iter k (nextRound mtab) c))
        with (Nat.iter (S k) (nextRound mtab) c).
      unfold q in Hq20.
      replace (Z.to_nat ((bufpos c + Z.of_nat (S n)) / 20)) with (S k)
        by (unfold k; Z.div_mod_to_equations; lia).
      replace ((bufpos c + Z.of_nat (S n)) mod 20 + 1) with 1
        by (Z.div_mod_to_equations; lia).
      reflexivity.
    + rewrite Z.div_small, Z.mod_small by lia.
      change (Nat.iter (Z.to_nat 0) (nextRound mtab) ?x) with x.
      unfold set_bufpos at 1. cbn [key keybox reg buffer bufpos].
      unfold q in Hq20 |- *.
      replace (Z.to_nat ((bufpos c + Z.of_nat (S n)) / 20)) with k
        by (unfold k; Z.div_mod_to_equations; lia).
      replace ((bufpos c + Z.of_nat (S n)) mod 20 + 1)
        with ((bufpos c + Z.of_nat n) mod 20 + 1 + 1)
        by (Z.div_mod_to_equations; lia).
      reflexivity.
Qed.

(** X17: a call on [n >= 1] bytes, started with the cursor at [p], runs
    exactly [(p + n - 1) / 20] rounds and leaves the cursor at
    [(p + n - 1) mod 20 + 1]: a round is generated only when a byte is
    needed, never ahead of it. *)
Theorem XORKeyStream_rounds (mtab : Z → Z) (c c' : Cipher)
    (dst src out : list Z) :
  invariant c → (0 < length src)%nat →
  XORKeyStream mtab c dst src = Some (c', out) →
  c' = set_bufpos
         (Nat.iter (Z.to_nat ((bufpos c + Z.of_nat (length src) - 1) / 20))
                   (nextRound mtab) c)
         ((bufpos c + Z.of_nat (length src) - 1) mod 20 + 1).
Proof.
  intros Hinv Hn H. pose proof (invariant_cursor_ok c Hinv) as Hc.
  rewrite XORKeyStream_Some in H by (done || by eapply XORKeyStream_Some_fits).
  injection H as <- _.
  destruct (length src) as [|n]; [lia|].
  rewrite keystream_state by done.
  replace (bufpos c + Z.of_nat (S n) - 1) with (bufpos c + Z.of_nat n) by lia.
  reflexivity.
Qed.

Lemma XORKeyStream_rounds_witness :
  ∃ c' out,
    XORKeyStream Sample.mtab Sample.cipher84 (replicate 45 0) (replicate 45 0)
      = Some (c', out) ∧
    c' = set_bufpos
           (Nat.iter (Z.to_nat ((bufpos Sample.cipher84
                                 + Z.of_nat (length (replicate 45 0)) - 1) / 20))
                     (nextRound Sample.mtab) Sample.cipher84)
           ((bufpos Sample.cipher84
             + Z.of_nat (length (replicate 45 0)) - 1) mod 20 + 1).
Proof.
  destruct (XORKeyStream Sample.mtab Sample.cipher84
              (replicate 45 0) (replicate 45 0)) as [[c' out]|] eqn:E;
    [|by vm_compute in E].
  exists c', out. split; [reflexivity|].
  apply (XORKeyStream_rounds Sample.mtab Sample.cipher84 c'
           (replicate 45 0) (replicate 45 0) out);
    [compute_done|cbn; lia|exact E].
Defined.
